(** * The actor runtime of dspygen ([dspygen.rdddy]): ActorSystem, actors,
    message kinds, waiters.

    The test file [tests/actor/test_actor_system.py] exercises
    [ActorSystem.actor_of], [actors_of], [send], [publish], [remove_actor],
    [wait_for_message] and [shutdown]; the module [dspygen/rdddy/actor_system.py]
    itself is not available, so the runtime below is modelled from the
    specification of that module, one Rocq function per
    operation, with explicit state passing.  The cooperative scheduler is
    modelled by explicit scheduling steps ([step_start], [step_finish]) and by
    [yield_all], one scheduling round that runs every queued handler. *)

From stdpp Require Import base gmap list strings pretty.


(** ** Messages *)

(** Modelled from the spec: the message hierarchy of [dspygen.rdddy]
    ([BaseMessage], [BaseEvent], [BaseCommand] and user subtypes such as
    [InsightTweetModuleEvent]).  [KBase] is the abstract base kind. *)
Inductive MsgKind :=
| KBase
| KEvent
| KCommand
| KOther (name : string).

Global Instance MsgKind_eq_dec : EqDecision MsgKind.
Proof. solve_decision. Defined.

Record Message := mkMsg { kind : MsgKind; content : string }.

Definition BaseMessage (c : string) : Message := mkMsg KBase c.
Definition BaseEvent (c : string) : Message := mkMsg KEvent c.
Definition BaseCommand (c : string) : Message := mkMsg KCommand c.

Definition is_base_kind (m : Message) : bool :=
  match kind m with KBase => true | _ => false end.

(** ** Actors *)

(** A handler turns the message and the actor's observable state
    ([received_message] in the test actor) into the new state. *)
Definition Handler := Message -> option string -> option string.

(** Modelled from the spec: an actor with its id, its dispatch table
    (message kind to handler, fixed at construction), its observable
    state, its mailbox of delivered messages not yet handled and the
    handler invocation in progress, if any. *)
Record Actor := mkActor {
  actor_id : nat;
  dispatch : list (MsgKind * Handler);
  received : option string;
  mailbox : list Message;
  running : option Message
}.

(** What a factory (an actor class) builds: a dispatch table and an
    initial state. *)
Record ActorSpec := mkSpec { spec_dispatch : list (MsgKind * Handler);
                             spec_received : option string }.

(** A factory receives the fresh id and either builds the actor or fails
    with an error. *)
Definition Factory := nat -> string + ActorSpec.

Definition make_actor (id : nat) (sp : ActorSpec) : Actor :=
  mkActor id (spec_dispatch sp) (spec_received sp) [] None.

Fixpoint find_handler (k : MsgKind) (d : list (MsgKind * Handler)) : option Handler :=
  match d with
  | [] => None
  | (k', h) :: d' => if decide (k = k') then Some h else find_handler k d'
  end.

Definition handles (a : Actor) (k : MsgKind) : bool :=
  match find_handler k (dispatch a) with Some _ => true | None => false end.

(** [TestBaseActor] of the test file: [handle_event] stores the content. *)
Definition record_content : Handler := fun m _ => Some (content m).

Definition TestBaseActor : Factory :=
  fun _ => inr (mkSpec [(KEvent, record_content)] None).

(** [BaseActor]: no handler at all. *)
Definition BaseActorF : Factory := fun _ => inr (mkSpec [] None).

(** Delivery into the mailbox; a kind without handler is ignored. *)
Definition deliver (m : Message) (a : Actor) : Actor :=
  if handles a (kind m)
  then mkActor (actor_id a) (dispatch a) (received a) (mailbox a ++ [m]) (running a)
  else a.

(** ** System state *)

Inductive Error :=
| InvalidMessageKind
| AlreadyShutdown
| FactoryError (e : string).

Inductive WaitResult :=
| Resolved (m : Message)
| Cancelled.

(** Events of the system's history: creation and removal of actors, start
    and completion of handler invocations. Newest first. *)
Inductive SysEvent :=
| EvCreated (id : nat)
| EvRemoved (id : nat)
| EvStarted (id : nat) (m : Message)
| EvFinished (id : nat) (m : Message).

Record State := mkState {
  actors : gmap nat Actor;
  next_id : nat;
  waiters : list (nat * MsgKind);        (* pending one-shot waiters *)
  results : list (nat * WaitResult);     (* resolved waiters, newest first *)
  next_wid : nat;
  diag : list string;                    (* observability sink, newest first *)
  trace : list SysEvent;                 (* history, newest first *)
  is_shut : bool
}.

Definition init : State := mkState ∅ 0 [] [] 0 [] [] false.

Definition set_actors (s : State) (m : gmap nat Actor) : State :=
  mkState m (next_id s) (waiters s) (results s) (next_wid s) (diag s) (trace s) (is_shut s).

Definition log_event (s : State) (e : SysEvent) : State :=
  mkState (actors s) (next_id s) (waiters s) (results s) (next_wid s) (diag s) (e :: trace s) (is_shut s).

Definition record_diag (s : State) (d : string) : State :=
  mkState (actors s) (next_id s) (waiters s) (results s) (next_wid s) (d :: diag s) (trace s) (is_shut s).

Definition lookup_result (w : nat) (s : State) : option WaitResult :=
  match List.find (fun p => Nat.eqb (fst p) w) (results s) with
  | Some (_, r) => Some r
  | None => None
  end.

(** ** Operations of [ActorSystem] *)

(** An operation either fails with an [Error] raised to the caller or
    returns its value; on failure the state is left as it was. *)
Definition Outcome (A : Type) : Type := (Error + A)%type.

(** Modelled from the spec: registration of a freshly built actor. *)
Definition register (id : nat) (sp : ActorSpec) (s : State) : State :=
  mkState (<[id := make_actor id sp]> (actors s)) (S id) (waiters s) (results s)
          (next_wid s) (diag s) (EvCreated id :: trace s) (is_shut s).

(** Modelled from the spec: [ActorSystem.actor_of]. *)
Definition actor_of (f : Factory) (s : State) : Outcome nat * State :=
  if is_shut s then (inl AlreadyShutdown, s) else
  let id := next_id s in
  match f id with
  | inl e => (inl (FactoryError e), s)
  | inr sp => (inr id, register id sp s)
  end.

Fixpoint build_all (fs : list Factory) (s : State) : Error + (list nat * State) :=
  match fs with
  | [] => inr ([], s)
  | f :: fs' =>
      let id := next_id s in
      match f id with
      | inl e => inl (FactoryError e)
      | inr sp =>
          match build_all fs' (register id sp s) with
          | inl err => inl err
          | inr (ids, s') => inr (id :: ids, s')
          end
      end
  end.

(** Modelled from the spec: [ActorSystem.actors_of], all or nothing. *)
Definition actors_of (fs : list Factory) (s : State) : Outcome (list nat) * State :=
  if is_shut s then (inl AlreadyShutdown, s) else
  match build_all fs s with
  | inl err => (inl err, s)
  | inr (ids, s') => (inr ids, s')
  end.

Definition not_found_msg (id : nat) : string :=
  ("Actor " +:+ pretty id +:+ " not found.")%string.

(** Modelled from the spec: [ActorSystem.send]. *)
Definition send (id : nat) (m : Message) (s : State) : Outcome unit * State :=
  if is_base_kind m then (inl InvalidMessageKind, s) else
  if is_shut s then (inl AlreadyShutdown, s) else
  match actors s !! id with
  | None => (inr tt, record_diag s (not_found_msg id))
  | Some a => (inr tt, set_actors s (<[id := deliver m a]> (actors s)))
  end.

Definition waiter_matches (m : Message) (w : nat * MsgKind) : bool :=
  bool_decide (snd w = kind m).

(** Modelled from the spec: [ActorSystem.publish]: delivery to every
    registered actor handling the kind, and resolution of every pending
    waiter of that kind. *)
Definition publish (m : Message) (s : State) : Outcome unit * State :=
  if is_base_kind m then (inl InvalidMessageKind, s) else
  if is_shut s then (inl AlreadyShutdown, s) else
  (inr tt,
   mkState (deliver m <$> actors s) (next_id s)
           (List.filter (fun w => negb (waiter_matches m w)) (waiters s))
           (map (fun w => (fst w, Resolved m)) (List.filter (waiter_matches m) (waiters s))
              ++ results s)
           (next_wid s) (diag s) (trace s) (is_shut s)).

(** Modelled from the spec: [ActorSystem.remove_actor]; an absent id is
    not an error. *)
Definition remove_actor (id : nat) (s : State) : Outcome unit * State :=
  match actors s !! id with
  | None => (inr tt, s)
  | Some _ => (inr tt, log_event (set_actors s (delete id (actors s))) (EvRemoved id))
  end.

(** Modelled from the spec: [ActorSystem.wait_for_message] registers a
    one-shot waiter and returns its handle; on a shut-down system the
    waiter is cancelled at once. *)
Definition wait_for_message (k : MsgKind) (s : State) : nat * State :=
  let w := next_wid s in
  if is_shut s
  then (w, mkState (actors s) (next_id s) (waiters s) ((w, Cancelled) :: results s)
                   (S w) (diag s) (trace s) (is_shut s))
  else (w, mkState (actors s) (next_id s) ((w, k) :: waiters s) (results s)
                   (S w) (diag s) (trace s) (is_shut s)).

(** Modelled from the spec: [ActorSystem.shutdown]: cancels every pending
    waiter, releases the actors and refuses later operations. *)
Definition shutdown (s : State) : Outcome unit * State :=
  (inr tt, mkState ∅ (next_id s) [] (map (fun w => (fst w, Cancelled)) (waiters s) ++ results s)
                   (next_wid s) (diag s) (trace s) true).

(** ** Scheduler *)

Definition run_handler (a : Actor) (m : Message) : option string :=
  match find_handler (kind m) (dispatch a) with
  | Some h => h m (received a)
  | None => received a
  end.

(** Start the next handler invocation of an idle actor. *)
Definition step_start (id : nat) (s : State) : State :=
  match actors s !! id with
  | Some a =>
      match running a, mailbox a with
      | None, m :: ms =>
          log_event (set_actors s (<[id := mkActor (actor_id a) (dispatch a) (received a) ms (Some m)]> (actors s)))
                    (EvStarted id m)
      | _, _ => s
      end
  | None => s
  end.

(** Run the invocation in progress to completion. *)
Definition step_finish (id : nat) (s : State) : State :=
  match actors s !! id with
  | Some a =>
      match running a with
      | Some m =>
          log_event (set_actors s (<[id := mkActor (actor_id a) (dispatch a) (run_handler a m) (mailbox a) None]> (actors s)))
                    (EvFinished id m)
      | None => s
      end
  | None => s
  end.

Fixpoint drain_n (n id : nat) (s : State) : State :=
  match n with
  | 0 => s
  | S n' => drain_n n' id (step_finish id (step_start id s))
  end.

Definition mailbox_len (id : nat) (s : State) : nat :=
  match actors s !! id with Some a => List.length (mailbox a) | None => 0 end.

(** Run every handler queued for one actor, one after the other. *)
Definition drain (id : nat) (s : State) : State :=
  let s1 := step_finish id s in drain_n (mailbox_len id s1) id s1.

(** One scheduling round ([await asyncio.sleep(0)]): every actor runs its
    queued handlers. *)
Definition yield_all (s : State) : State :=
  fold_left (fun s id => drain id s) (map fst (map_to_list (actors s))) s.

(** ** Runs *)

Inductive Op :=
| OpActorOf (f : Factory)
| OpActorsOf (fs : list Factory)
| OpSend (id : nat) (m : Message)
| OpPublish (m : Message)
| OpRemove (id : nat)
| OpWait (k : MsgKind)
| OpShutdown
| OpStart (id : nat)
| OpFinish (id : nat)
| OpYield.

Definition exec (op : Op) (s : State) : State :=
  match op with
  | OpActorOf f => snd (actor_of f s)
  | OpActorsOf fs => snd (actors_of fs s)
  | OpSend id m => snd (send id m s)
  | OpPublish m => snd (publish m s)
  | OpRemove id => snd (remove_actor id s)
  | OpWait k => snd (wait_for_message k s)
  | OpShutdown => snd (shutdown s)
  | OpStart id => step_start id s
  | OpFinish id => step_finish id s
  | OpYield => yield_all s
  end.

Definition run (ops : list Op) (s : State) : State := fold_left (fun s op => exec op s) ops s.

Inductive reachable : State -> Prop :=
| reach_init : reachable init
| reach_step op s : reachable s -> reachable (exec op s).

(** The first scenario of the test file: two [TestBaseActor]s, a published
    event, one scheduling round. *)
Definition publishing_scenario : State :=
  let s := run [OpActorOf TestBaseActor; OpActorOf TestBaseActor] init in
  yield_all (snd (publish (BaseEvent "Content"%string) s)).

Example publishing_scenario_ok :
  (received <$> (actors publishing_scenario !! 0)) = Some (Some "Content"%string) /\
  (received <$> (actors publishing_scenario !! 1)) = Some (Some "Content"%string).
Proof. vm_compute. split; reflexivity. Qed.

Example not_found_msg_3 : not_found_msg 3 = "Actor 3 not found."%string.
Proof. vm_compute. reflexivity. Qed.

(** ** The test file's log sink *)

(** [LogSink] of the test file: [write] appends to [messages], [__str__]
    joins them with the empty separator. *)
Record LogSink := mkSink { messages : list string }.

Definition empty_sink : LogSink := mkSink [].

Definition sink_write (sink : LogSink) (message : string) : LogSink :=
  mkSink (messages sink ++ [message]).

Definition sink_str (sink : LogSink) : string :=
  foldr String.append ""%string (messages sink).

Definition sink_writes (sink : LogSink) (ws : list string) : LogSink :=
  fold_left sink_write ws sink.

(** [logger.add(sink, format="{message}")]: each diagnostic of the system
    reaches the sink as its message, terminated by the newline loguru puts
    after every formatted record, in the order it was recorded. *)
Definition log_record (d : string) : string := (d +:+ String (Ascii.ascii_of_nat 10) EmptyString)%string.

Definition sink_of_diag (s : State) : LogSink :=
  sink_writes empty_sink (map log_record (rev (diag s))).

Definition is_substring (needle hay : string) : Prop :=
  exists pre post, hay = (pre +:+ needle +:+ post)%string.

(** ** What one scheduling round does to an actor *)

Definition apply_handler (d : list (MsgKind * Handler)) (m : Message) (r : option string) :
    option string :=
  match find_handler (kind m) d with Some h => h m r | None => r end.

Definition handle_all (d : list (MsgKind * Handler)) (ms : list Message) (r : option string) :
    option string :=
  fold_left (fun r m => apply_handler d m r) ms r.

(** The actor once the invocation in progress and every queued message
    have been handled. *)
Definition drained_actor (a : Actor) : Actor :=
  mkActor (actor_id a) (dispatch a)
          (handle_all (dispatch a) (mailbox a)
             (match running a with
              | Some m0 => apply_handler (dispatch a) m0 (received a)
              | None => received a
              end))
          [] None.

(** ** [InsightTweetModuleActor] *)

(** [InsightTweetModuleEvent(content=...)], a user subtype of the event
    kind. *)
Definition InsightTweetModuleEvent (c : string) : Message :=
  mkMsg (KOther "InsightTweetModuleEvent") c.

(** [dspy.settings.lm]: the language model [init_dspy] configures, [None]
    until it has been called. A configured model answers a prompt or raises
    (network, quota, ...); an exception is represented by its message. *)
Definition LM := option (string -> string + string).

(** [dspy.Predict] asserts that a language model is loaded before it
    prompts one. *)
Definition no_lm_loaded : string := "No LM is loaded."%string.

(** [InsightTweetModule.forward]: the chain of thought
    [insight -> tweet_with_length_of_100_chars] prompts the configured
    language model with the insight and returns the field it produces. *)
Definition forward (lm : LM) (insight : string) : string + string :=
  match lm with
  | None => inl no_lm_loaded
  | Some model => model insight
  end.

(** [insight_tweet_call]: a fresh [InsightTweetModule], then [forward]. *)
Definition insight_tweet_call (lm : LM) (insight : string) : string + string :=
  forward lm insight.

(** What escapes a handler: the exception of the language-model call, or
    the error the system's [publish] raises. *)
Inductive HandlerError :=
| LMException (e : string)
| SystemError (e : Error).

(** [InsightTweetModuleActor.handle_tax_return]: the argument of [publish]
    is evaluated first, so an exception of [insight_tweet_call] leaves the
    handler before anything is published; otherwise the event whose content
    is the tweet is published through the actor's system, and an error of
    [publish] escapes the handler too. *)
Definition handle_tax_return (lm : LM) (command : Message) (s : State) :
    (HandlerError + unit) * State :=
  match insight_tweet_call lm (content command) with
  | inl e => (inl (LMException e), s)
  | inr tweet =>
      match publish (InsightTweetModuleEvent tweet) s with
      | (inl err, s') => (inl (SystemError err), s')
      | (inr tt, s') => (inr tt, s')
      end
  end.

(** ** Handler invocations in the history *)

(** The messages whose handler invocation the history records as
    completed by actor [id], newest first. *)
Fixpoint finished_of (id : nat) (tr : list SysEvent) : list Message :=
  match tr with
  | [] => []
  | EvFinished id' m :: tr' => if Nat.eqb id id' then m :: finished_of id tr' else finished_of id tr'
  | _ :: tr' => finished_of id tr'
  end.

Definition opt_list {A} (o : option A) : list A :=
  match o with Some x => [x] | None => [] end.

(** * Properties *)

(** ** Operations that leave the waiter registry and the shutdown flag alone *)

Lemma build_all_waiters fs s ids s' :
  build_all fs s = inr (ids, s') -> waiters s' = waiters s /\ is_shut s' = is_shut s.
Proof.
  revert s ids s'. induction fs as [|f fs IH]; intros s ids s' H; simpl in H.
  - by inversion H.
  - destruct (f (next_id s)) as [e|sp]; [discriminate|].
    destruct (build_all fs (register (next_id s) sp s)) as [err|[ids0 s0]] eqn:E; [discriminate|].
    inversion H; subst. apply IH in E. exact E.
Qed.

Lemma step_start_waiters id s :
  waiters (step_start id s) = waiters s /\ is_shut (step_start id s) = is_shut s.
Proof.
  unfold step_start. destruct (actors s !! id) as [a|]; [|done].
  destruct (running a), (mailbox a); done.
Qed.

Lemma step_finish_waiters id s :
  waiters (step_finish id s) = waiters s /\ is_shut (step_finish id s) = is_shut s.
Proof.
  unfold step_finish. destruct (actors s !! id) as [a|]; [|done].
  destruct (running a); done.
Qed.

Lemma drain_n_waiters n id s :
  waiters (drain_n n id s) = waiters s /\ is_shut (drain_n n id s) = is_shut s.
Proof.
  revert s. induction n as [|n IH]; intros s; simpl; [done|].
  destruct (IH (step_finish id (step_start id s))) as [-> ->].
  destruct (step_finish_waiters id (step_start id s)) as [-> ->].
  apply step_start_waiters.
Qed.

Lemma drain_waiters id s :
  waiters (drain id s) = waiters s /\ is_shut (drain id s) = is_shut s.
Proof.
  unfold drain. destruct (drain_n_waiters (mailbox_len id (step_finish id s)) id (step_finish id s)) as [-> ->].
  apply step_finish_waiters.
Qed.

Lemma yield_all_waiters s :
  waiters (yield_all s) = waiters s /\ is_shut (yield_all s) = is_shut s.
Proof.
  unfold yield_all. generalize (map fst (map_to_list (actors s))) as l.
  intros l. revert s. induction l as [|id l IH]; intros s; simpl; [done|].
  destruct (IH (drain id s)) as [-> ->]. apply drain_waiters.
Qed.

(** Once shut down, the system stays shut down. *)
Lemma exec_shut_mono op s : is_shut s = true -> is_shut (exec op s) = true.
Proof.
  intros Hs. destruct op; simpl.
  - unfold actor_of. by rewrite Hs.
  - unfold actors_of. by rewrite Hs.
  - unfold send. destruct (is_base_kind m); [done|]. by rewrite Hs.
  - unfold publish. destruct (is_base_kind m); [done|]. by rewrite Hs.
  - unfold remove_actor. by destruct (actors s !! id).
  - unfold wait_for_message. by rewrite Hs.
  - done.
  - by rewrite (proj2 (step_start_waiters id s)).
  - by rewrite (proj2 (step_finish_waiters id s)).
  - by rewrite (proj2 (yield_all_waiters s)).
Qed.

Lemma run_shut_mono ops s : is_shut s = true -> is_shut (run ops s) = true.
Proof.
  revert s. induction ops as [|op ops IH]; intros s Hs; simpl; [done|].
  apply IH, exec_shut_mono, Hs.
Qed.

(** The first entry for [w] in a block of fresh results prepended to the
    older ones is the fresh one. *)
Lemma find_prepended {A} (w : nat) (v : WaitResult) (l : list (nat * A)) r :
  In w (map fst l) ->
  List.find (fun p => Nat.eqb (fst p) w) (map (fun x => (fst x, v)) l ++ r) = Some (w, v).
Proof.
  induction l as [|x l IH]; simpl; [done|].
  intros Hin. destruct (Nat.eqb (fst x) w) eqn:E.
  - apply Nat.eqb_eq in E. by rewrite E.
  - apply IH. destruct Hin as [Hx|Hin]; [|done].
    subst. by rewrite Nat.eqb_refl in E.
Qed.

Lemma lookup_result_prepended {A} w v (l : list (nat * A)) s r :
  results s = map (fun x => (fst x, v)) l ++ r -> In w (map fst l) ->
  lookup_result w s = Some v.
Proof.
  intros Hr Hin. unfold lookup_result. rewrite Hr, (find_prepended w v l r Hin). done.
Qed.

Lemma in_filter_fst (w : nat) (k : MsgKind) (p : nat * MsgKind -> bool) l :
  In (w, k) l -> p (w, k) = true -> In w (map fst (List.filter p l)).
Proof.
  intros Hin Hp. apply (in_map fst (List.filter p l) (w, k)).
  apply filter_In. by split.
Qed.

(** ** Waiters and publication *)

(** Publication keeps a pending waiter of another kind pending. *)
Lemma publish_keeps_waiter m s w k :
  k <> kind m -> In (w, k) (waiters s) ->
  In (w, k) (waiters (snd (publish m s))).
Proof.
  intros Hk Hin. unfold publish.
  destruct (is_base_kind m); [done|]. destruct (is_shut s); [done|]. simpl.
  apply filter_In. split; [done|].
  unfold waiter_matches. simpl. by rewrite bool_decide_eq_false_2.
Qed.

(** A successful publication resolves every pending waiter of its kind
    with the published message. *)
Lemma publish_resolves m s w :
  is_shut s = false -> is_base_kind m = false -> In (w, kind m) (waiters s) ->
  fst (publish m s) = inr tt /\ lookup_result w (snd (publish m s)) = Some (Resolved m).
Proof.
  intros Hs Hb Hin. unfold publish. rewrite Hb, Hs. split; [done|].
  eapply lookup_result_prepended; [simpl; reflexivity|].
  apply (in_filter_fst w (kind m)); [done|].
  unfold waiter_matches. simpl. by apply bool_decide_eq_true_2.
Qed.

Definition no_event_publish (op : Op) : Prop :=
  match op with OpPublish m => kind m <> KEvent | _ => True end.

Lemma exec_keeps_event_waiter w op s :
  no_event_publish op ->
  is_shut s = true \/ In (w, KEvent) (waiters s) ->
  is_shut (exec op s) = true \/ In (w, KEvent) (waiters (exec op s)).
Proof.
  intros Hop [Hs|Hin]; [left; by apply exec_shut_mono|].
  destruct (is_shut s) eqn:Hs; [left; by apply exec_shut_mono|].
  destruct op; simpl; try (left; reflexivity); right.
  - unfold actor_of. rewrite Hs. by destruct (f (next_id s)).
  - unfold actors_of. rewrite Hs.
    destruct (build_all fs s) as [err|[ids s']] eqn:E; [done|].
    simpl. by rewrite (proj1 (build_all_waiters fs s ids s' E)).
  - unfold send. destruct (is_base_kind m); [done|]. rewrite Hs.
    by destruct (actors s !! id).
  - apply publish_keeps_waiter; [|done]. simpl in Hop. congruence.
  - unfold remove_actor. by destruct (actors s !! id).
  - unfold wait_for_message. rewrite Hs. simpl. by right.
  - by rewrite (proj1 (step_start_waiters id s)).
  - by rewrite (proj1 (step_finish_waiters id s)).
  - by rewrite (proj1 (yield_all_waiters s)).
Qed.

Lemma run_keeps_event_waiter w ops s :
  Forall no_event_publish ops ->
  is_shut s = true \/ In (w, KEvent) (waiters s) ->
  is_shut (run ops s) = true \/ In (w, KEvent) (waiters (run ops s)).
Proof.
  revert s. induction ops as [|op ops IH]; intros s Hops H; simpl; [done|].
  inversion Hops; subst. apply IH; [done|]. by apply exec_keeps_event_waiter.
Qed.

(** C2: a [wait_for_message(Event)] started before the matching
    [publish(Event(content=C))], whatever runs in between on other paths
    (any operations that publish no [Event]: actor creation, sends,
    publications of other kinds, scheduling rounds, further waits), resolves
    to the published event, whose content is [C]. *)
Theorem wait_for_event_sequentially (s : State) (ops : list Op) (c : string) :
  Forall no_event_publish ops ->
  fst (publish (BaseEvent c) (run ops (snd (wait_for_message KEvent s)))) = inr tt ->
  exists m,
    lookup_result (fst (wait_for_message KEvent s))
      (snd (publish (BaseEvent c) (run ops (snd (wait_for_message KEvent s))))) = Some (Resolved m)
    /\ content m = c.
Proof.
  intros Hops Hok.
  assert (Hw : is_shut (snd (wait_for_message KEvent s)) = true \/
               In (fst (wait_for_message KEvent s), KEvent) (waiters (snd (wait_for_message KEvent s)))).
  { unfold wait_for_message. destruct (is_shut s) eqn:Hs; simpl; [left; done|right; by left]. }
  pose proof (run_keeps_event_waiter _ ops _ Hops Hw) as Hr.
  revert Hok Hr. generalize (run ops (snd (wait_for_message KEvent s))) as s2.
  intros s2 Hok [Hs2|Hin].
  - unfold publish in Hok. simpl in Hok. rewrite Hs2 in Hok. discriminate.
  - assert (Hs2 : is_shut s2 = false).
    { unfold publish in Hok. simpl in Hok. by destruct (is_shut s2). }
    exists (BaseEvent c). split; [|done].
    by apply publish_resolves.
Qed.

(** C3: publishing or sending a message whose kind is exactly the abstract
    base kind fails with [InvalidMessageKind] and leaves the whole system
    (actors, mailboxes, waiters) unchanged: nothing is delivered. *)
Theorem base_message_rejected (s : State) (c : string) :
  publish (BaseMessage c) s = (inl InvalidMessageKind, s) /\
  forall id, send id (BaseMessage c) s = (inl InvalidMessageKind, s).
Proof. split; [done|]. intros id. done. Qed.

(** C5: [shutdown] succeeds, resolves every waiter pending at that moment
    with [Cancelled], leaves no waiter pending, and from then on, whatever
    else is run, [send], [publish], [actor_of] and [actors_of] fail without
    changing the state while a further [shutdown] still succeeds. *)
Theorem shutdown_refuses (s : State) :
  fst (shutdown s) = inr tt /\
  waiters (snd (shutdown s)) = [] /\
  (forall w k, In (w, k) (waiters s) -> lookup_result w (snd (shutdown s)) = Some Cancelled) /\
  forall ops, let s2 := run ops (snd (shutdown s)) in
    (forall id m, exists e, send id m s2 = (inl e, s2)) /\
    (forall m, exists e, publish m s2 = (inl e, s2)) /\
    (forall f, actor_of f s2 = (inl AlreadyShutdown, s2)) /\
    (forall fs, actors_of fs s2 = (inl AlreadyShutdown, s2)) /\
    fst (shutdown s2) = inr tt.
Proof.
  split; [done|]. split; [done|]. split.
  - intros w k Hin. eapply lookup_result_prepended; [simpl; reflexivity|].
    apply (in_map fst _ (w, k) Hin).
  - intros ops s2.
    assert (Hs : is_shut s2 = true) by (apply run_shut_mono; done).
    repeat split.
    + intros id m. unfold send. destruct (is_base_kind m); [by eexists|].
      rewrite Hs. by eexists.
    + intros m. unfold publish. destruct (is_base_kind m); [by eexists|].
      rewrite Hs. by eexists.
    + intros f. unfold actor_of. by rewrite Hs.
    + intros fs. unfold actors_of. by rewrite Hs.
Qed.

(** C10: a pending [wait_for_message(k)] is resolved by a publication of
    kind [k] when no actor is registered at all, and more generally what a
    publication does to the waiters does not depend on the actor registry. *)
Theorem publish_resolves_without_actors (s : State) (w : nat) (k : MsgKind) (c : string) :
  is_shut s = false -> k <> KBase -> In (w, k) (waiters s) ->
  (fst (publish (mkMsg k c) (set_actors s ∅)) = inr tt /\
   lookup_result w (snd (publish (mkMsg k c) (set_actors s ∅))) = Some (Resolved (mkMsg k c))) /\
  waiters (snd (publish (mkMsg k c) s)) = waiters (snd (publish (mkMsg k c) (set_actors s ∅))) /\
  results (snd (publish (mkMsg k c) s)) = results (snd (publish (mkMsg k c) (set_actors s ∅))).
Proof.
  intros Hs Hk Hin.
  assert (Hb : is_base_kind (mkMsg k c) = false) by (unfold is_base_kind; simpl; by destruct k).
  split; [by apply publish_resolves|].
  unfold publish. rewrite Hb. simpl. by rewrite Hs.
Qed.

(** ** The invariant of reachable states *)

Definition ev_id (e : SysEvent) : nat :=
  match e with
  | EvCreated id | EvRemoved id | EvStarted id _ | EvFinished id _ => id
  end.

(** The ids handed out by the system, in its history. *)
Fixpoint created_ids (tr : list SysEvent) : list nat :=
  match tr with
  | [] => []
  | EvCreated id :: tr' => id :: created_ids tr'
  | _ :: tr' => created_ids tr'
  end.

(** The handler invocations of one actor, newest first: [true] for a start,
    [false] for a completion. *)
Fixpoint proj (id : nat) (tr : list SysEvent) : list bool :=
  match tr with
  | [] => []
  | EvStarted id' _ :: tr' => if Nat.eqb id id' then true :: proj id tr' else proj id tr'
  | EvFinished id' _ :: tr' => if Nat.eqb id id' then false :: proj id tr' else proj id tr'
  | _ :: tr' => proj id tr'
  end.

(** Replays the starts and completions of one actor, oldest first:
    [Some true] while an invocation is in progress, [Some false] when none
    is, [None] when a start happened during another invocation or a
    completion without an invocation. *)
Fixpoint bracket (l : list bool) : option bool :=
  match l with
  | [] => Some false
  | true :: l' => match bracket l' with Some false => Some true | _ => None end
  | false :: l' => match bracket l' with Some true => Some false | _ => None end
  end.

(** The history never runs two invocations of actor [id] at once. *)
Definition sequential (id : nat) (tr : list SysEvent) : bool :=
  match bracket (proj id tr) with Some _ => true | None => false end.

Record Inv (s : State) : Prop := {
  inv_keys : forall id a, actors s !! id = Some a -> actor_id a = id /\ id < next_id s;
  inv_trace_ids : forall e, In e (trace s) -> ev_id e < next_id s;
  inv_created : NoDup (created_ids (trace s));
  inv_shut : is_shut s = true -> actors s = ∅;
  inv_seq : forall id, bracket (proj id (trace s)) <> None;
  inv_running : forall id a, actors s !! id = Some a ->
                  bracket (proj id (trace s)) = Some (bool_decide (running a <> None))
}.

Lemma proj_fresh n tr : (forall e, In e tr -> ev_id e < n) -> proj n tr = [].
Proof.
  induction tr as [|e tr IH]; intros H; simpl; [done|].
  assert (He : ev_id e < n) by (apply H; by left).
  assert (IH' : proj n tr = []) by (apply IH; intros e' Hin; apply H; by right).
  destruct e as [x|x|x m|x m]; simpl in He; try done;
    (destruct (Nat.eqb n x) eqn:E; [apply Nat.eqb_eq in E; lia|done]).
Qed.

Lemma created_ids_bound n tr : (forall e, In e tr -> ev_id e < n) -> n ∉ created_ids tr.
Proof.
  induction tr as [|e tr IH]; intros H; simpl; [apply not_elem_of_nil|].
  assert (He : ev_id e < n) by (apply H; by left).
  assert (IH' : n ∉ created_ids tr) by (apply IH; intros e' Hin; apply H; by right).
  destruct e as [x|x|x m|x m]; simpl in He; try done.
  apply not_elem_of_cons. split; [lia|done].
Qed.

Lemma Inv_same s s' :
  actors s' = actors s -> next_id s' = next_id s -> trace s' = trace s ->
  is_shut s' = is_shut s -> Inv s -> Inv s'.
Proof.
  intros Ha Hn Ht Hs [H1 H2 H3 H4 H5 H6].
  split; rewrite ?Ha, ?Hn, ?Ht, ?Hs; done.
Qed.

Lemma Inv_update s id a a' :
  actors s !! id = Some a -> actor_id a' = actor_id a -> running a' = running a ->
  Inv s -> Inv (set_actors s (<[id := a']> (actors s))).
Proof.
  intros Ha Hid Hr [H1 H2 H3 H4 H5 H6]. split; simpl; try done.
  - intros id' b Hb. destruct (decide (id = id')) as [<-|Hne].
    + rewrite lookup_insert_eq in Hb. inversion Hb; subst. rewrite Hid. by apply H1.
    + rewrite lookup_insert_ne in Hb by done. by apply H1.
  - intros Hs. apply H4 in Hs. rewrite Hs in Ha. by rewrite lookup_empty in Ha.
  - intros id' b Hb. destruct (decide (id = id')) as [<-|Hne].
    + rewrite lookup_insert_eq in Hb. inversion Hb; subst. rewrite Hr. by apply H6.
    + rewrite lookup_insert_ne in Hb by done. by apply H6.
Qed.

Lemma Inv_fmap s (f : Actor -> Actor) :
  (forall a, actor_id (f a) = actor_id a /\ running (f a) = running a) ->
  Inv s -> Inv (set_actors s (f <$> actors s)).
Proof.
  intros Hf [H1 H2 H3 H4 H5 H6]. split; simpl; try done.
  - intros id b Hb. rewrite lookup_fmap in Hb.
    destruct (actors s !! id) as [a|] eqn:Ha; simpl in Hb; [|discriminate].
    inversion Hb; subst. rewrite (proj1 (Hf a)). by apply H1.
  - intros Hs. by rewrite (H4 Hs), fmap_empty.
  - intros id b Hb. rewrite lookup_fmap in Hb.
    destruct (actors s !! id) as [a|] eqn:Ha; simpl in Hb; [|discriminate].
    inversion Hb; subst. rewrite (proj2 (Hf a)). by apply H6.
Qed.

Lemma Inv_register s sp :
  is_shut s = false -> Inv s -> Inv (register (next_id s) sp s).
Proof.
  intros Hs [H1 H2 H3 H4 H5 H6]. unfold register. split; simpl.
  - intros id a Ha. destruct (decide (next_id s = id)) as [<-|Hne].
    + rewrite lookup_insert_eq in Ha. inversion Ha; subst. simpl. split; [done|lia].
    + rewrite lookup_insert_ne in Ha by done. destruct (H1 id a Ha). split; [done|lia].
  - intros e [<-|He]; simpl; [lia|]. specialize (H2 e He). lia.
  - constructor; [by apply created_ids_bound|done].
  - intros Hs'. congruence.
  - intros id. apply H5.
  - intros id a Ha. destruct (decide (next_id s = id)) as [<-|Hne].
    + rewrite lookup_insert_eq in Ha. inversion Ha; subst. simpl.
      by rewrite (proj_fresh (next_id s) (trace s) H2).
    + rewrite lookup_insert_ne in Ha by done. by apply H6.
Qed.

Lemma Inv_build_all fs s ids s' :
  is_shut s = false -> Inv s -> build_all fs s = inr (ids, s') -> Inv s'.
Proof.
  revert s ids s'. induction fs as [|f fs IH]; intros s ids s' Hs HI H; simpl in H.
  - by inversion H; subst.
  - destruct (f (next_id s)) as [e|sp]; [discriminate|].
    destruct (build_all fs (register (next_id s) sp s)) as [err|[ids0 s0]] eqn:E; [discriminate|].
    inversion H; subst. eapply IH; [| |exact E]; [done|]. by apply Inv_register.
Qed.

Lemma Inv_remove s id a :
  actors s !! id = Some a -> Inv s ->
  Inv (log_event (set_actors s (delete id (actors s))) (EvRemoved id)).
Proof.
  intros Ha [H1 H2 H3 H4 H5 H6]. split; simpl.
  - intros id' b Hb. rewrite lookup_delete_Some in Hb. destruct Hb as [_ Hb]. by apply H1.
  - intros e [<-|He]; simpl; [apply (H1 id a Ha)|by apply H2].
  - done.
  - intros Hs. by rewrite (H4 Hs), delete_empty.
  - done.
  - intros id' b Hb. rewrite lookup_delete_Some in Hb. destruct Hb as [_ Hb]. by apply H6.
Qed.

Lemma Inv_step_start id s : Inv s -> Inv (step_start id s).
Proof.
  intros HI. unfold step_start.
  destruct (actors s !! id) as [a|] eqn:Ha; [|done].
  destruct (running a) as [r|] eqn:Hr; [done|].
  destruct (mailbox a) as [|m ms] eqn:Hm; [done|].
  destruct HI as [H1 H2 H3 H4 H5 H6].
  pose proof (H6 id a Ha) as Hb. rewrite Hr in Hb. simpl in Hb.
  split; simpl.
  - intros id' b Hb'. destruct (decide (id = id')) as [<-|Hne].
    + rewrite lookup_insert_eq in Hb'. inversion Hb'; subst. simpl. by apply H1.
    + rewrite lookup_insert_ne in Hb' by done. by apply H1.
  - intros e [<-|He]; simpl; [apply (H1 id a Ha)|by apply H2].
  - done.
  - intros Hs. apply H4 in Hs. by rewrite Hs, lookup_empty in Ha.
  - intros id'. destruct (Nat.eqb id' id) eqn:E.
    + apply Nat.eqb_eq in E. subst id'. simpl. rewrite Hb. done.
    + apply H5.
  - intros id' b Hb'. destruct (decide (id = id')) as [<-|Hne].
    + rewrite lookup_insert_eq in Hb'. inversion Hb'; subst. simpl.
      rewrite Nat.eqb_refl. simpl. rewrite Hb. done.
    + rewrite lookup_insert_ne in Hb' by done.
      assert (E : Nat.eqb id' id = false) by (apply Nat.eqb_neq; congruence).
      rewrite E. by apply H6.
Qed.

Lemma Inv_step_finish id s : Inv s -> Inv (step_finish id s).
Proof.
  intros HI. unfold step_finish.
  destruct (actors s !! id) as [a|] eqn:Ha; [|done].
  destruct (running a) as [m|] eqn:Hr; [|done].
  destruct HI as [H1 H2 H3 H4 H5 H6].
  pose proof (H6 id a Ha) as Hb. rewrite Hr in Hb. simpl in Hb.
  split; simpl.
  - intros id' b Hb'. destruct (decide (id = id')) as [<-|Hne].
    + rewrite lookup_insert_eq in Hb'. inversion Hb'; subst. simpl. by apply H1.
    + rewrite lookup_insert_ne in Hb' by done. by apply H1.
  - intros e [<-|He]; simpl; [apply (H1 id a Ha)|by apply H2].
  - done.
  - intros Hs. apply H4 in Hs. by rewrite Hs, lookup_empty in Ha.
  - intros id'. destruct (Nat.eqb id' id) eqn:E.
    + apply Nat.eqb_eq in E. subst id'. simpl. rewrite Hb. done.
    + apply H5.
  - intros id' b Hb'. destruct (decide (id = id')) as [<-|Hne].
    + rewrite lookup_insert_eq in Hb'. inversion Hb'; subst. simpl.
      rewrite Nat.eqb_refl. simpl. rewrite Hb. done.
    + rewrite lookup_insert_ne in Hb' by done.
      assert (E : Nat.eqb id' id = false) by (apply Nat.eqb_neq; congruence).
      rewrite E. by apply H6.
Qed.

Lemma Inv_drain id s : Inv s -> Inv (drain id s).
Proof.
  intros HI. unfold drain. generalize (mailbox_len id (step_finish id s)) as n.
  intros n. assert (H : Inv (step_finish id s)) by (by apply Inv_step_finish).
  revert H. generalize (step_finish id s) as s1. clear HI.
  induction n as [|n IH]; intros s1 H; simpl; [done|].
  apply IH, Inv_step_finish, Inv_step_start, H.
Qed.

Lemma Inv_yield_all s : Inv s -> Inv (yield_all s).
Proof.
  unfold yield_all. generalize (map fst (map_to_list (actors s))) as l.
  intros l. revert s. induction l as [|id l IH]; intros s H; simpl; [done|].
  apply IH, Inv_drain, H.
Qed.

Lemma Inv_exec op s : Inv s -> Inv (exec op s).
Proof.
  intros HI. destruct op; simpl.
  - unfold actor_of. destruct (is_shut s) eqn:Hs; [done|].
    destruct (f (next_id s)); [done|]. by apply Inv_register.
  - unfold actors_of. destruct (is_shut s) eqn:Hs; [done|].
    destruct (build_all fs s) as [err|[ids s']] eqn:E; [done|].
    by apply (Inv_build_all fs s ids s').
  - unfold send. destruct (is_base_kind m); [done|]. destruct (is_shut s); [done|].
    destruct (actors s !! id) as [a|] eqn:Ha; simpl.
    + apply (Inv_update s id a); [done| | |done]; unfold deliver; by destruct (handles a (kind m)).
    + by apply (Inv_same s).
  - unfold publish. destruct (is_base_kind m); [done|]. destruct (is_shut s) eqn:Hs; [done|].
    simpl. apply (Inv_same (set_actors s (deliver m <$> actors s))); simpl; try done.
    apply Inv_fmap; [|done]. intros a. unfold deliver. by destruct (handles a (kind m)).
  - unfold remove_actor. destruct (actors s !! id) as [a|] eqn:Ha; simpl; [|exact HI].
    by apply (Inv_remove s id a).
  - unfold wait_for_message. destruct (is_shut s) eqn:Hs; apply (Inv_same s); simpl; rewrite ?Hs; done.
  - destruct HI as [H1 H2 H3 H4 H5 H6].
    split; simpl; try done; intros id a Ha; by rewrite lookup_empty in Ha.
  - by apply Inv_step_start.
  - by apply Inv_step_finish.
  - by apply Inv_yield_all.
Qed.

Lemma reachable_Inv s : reachable s -> Inv s.
Proof.
  induction 1 as [|op s _ IH].
  - split; simpl; try done; try constructor; intros id a Ha; by rewrite lookup_empty in Ha.
  - by apply Inv_exec.
Qed.

Lemma reachable_run ops s : reachable s -> reachable (run ops s).
Proof.
  revert s. induction ops as [|op ops IH]; intros s H; simpl; [done|].
  apply IH. by constructor.
Qed.

(** ** The history only grows *)

Definition extends (s s' : State) : Prop := exists l, trace s' = l ++ trace s.

Lemma extends_refl s : extends s s.
Proof. by exists []. Qed.

Lemma extends_trans s1 s2 s3 : extends s1 s2 -> extends s2 s3 -> extends s1 s3.
Proof. intros [l1 H1] [l2 H2]. exists (l2 ++ l1). by rewrite H2, H1, app_assoc. Qed.

Lemma extends_In s s' e : extends s s' -> In e (trace s) -> In e (trace s').
Proof. intros [l ->] H. apply in_or_app. by right. Qed.

Lemma step_start_extends id s : extends s (step_start id s).
Proof.
  unfold step_start. destruct (actors s !! id) as [a|]; [|apply extends_refl].
  destruct (running a), (mailbox a); try apply extends_refl. by eexists [_].
Qed.

Lemma step_finish_extends id s : extends s (step_finish id s).
Proof.
  unfold step_finish. destruct (actors s !! id) as [a|]; [|apply extends_refl].
  destruct (running a); [by eexists [_]|apply extends_refl].
Qed.

Lemma drain_n_extends n id s : extends s (drain_n n id s).
Proof.
  revert s. induction n as [|n IH]; intros s; simpl; [apply extends_refl|].
  eapply extends_trans; [|apply IH].
  eapply extends_trans; [apply step_start_extends|apply step_finish_extends].
Qed.

Lemma drain_extends id s : extends s (drain id s).
Proof.
  unfold drain. eapply extends_trans; [apply step_finish_extends|apply drain_n_extends].
Qed.

Lemma fold_drain_extends l s : extends s (fold_left (fun s id => drain id s) l s).
Proof.
  revert s. induction l as [|id l IH]; intros s; simpl; [apply extends_refl|].
  eapply extends_trans; [apply drain_extends|apply IH].
Qed.

Lemma build_all_extends fs s ids s' : build_all fs s = inr (ids, s') -> extends s s'.
Proof.
  revert s ids s'. induction fs as [|f fs IH]; intros s ids s' H; simpl in H.
  - inversion H; subst. apply extends_refl.
  - destruct (f (next_id s)) as [e|sp]; [discriminate|].
    destruct (build_all fs (register (next_id s) sp s)) as [err|[ids0 s0]] eqn:E; [discriminate|].
    inversion H; subst. eapply extends_trans; [|exact (IH _ _ _ E)]. by eexists [_].
Qed.

Lemma exec_extends op s : extends s (exec op s).
Proof.
  destruct op; simpl.
  - unfold actor_of. destruct (is_shut s); [by exists []|].
    destruct (f (next_id s)); [by exists []|by eexists [_]].
  - unfold actors_of. destruct (is_shut s); [by exists []|].
    destruct (build_all fs s) as [err|[ids s']] eqn:E; [by exists []|].
    by apply (build_all_extends fs s ids).
  - unfold send. destruct (is_base_kind m); [by exists []|].
    destruct (is_shut s); [by exists []|].
    destruct (actors s !! id); by exists [].
  - unfold publish. destruct (is_base_kind m); [by exists []|].
    destruct (is_shut s); [by exists []|]. by exists [].
  - unfold remove_actor. destruct (actors s !! id); [by eexists [_]|by exists []].
  - unfold wait_for_message. destruct (is_shut s); by exists [].
  - by exists [].
  - apply step_start_extends.
  - apply step_finish_extends.
  - apply fold_drain_extends.
Qed.

Lemma run_extends ops s : extends s (run ops s).
Proof.
  revert s. induction ops as [|op ops IH]; intros s; simpl; [apply extends_refl|].
  eapply extends_trans; [apply exec_extends|apply IH].
Qed.

(** ** Registered and removed ids were handed out by the system *)

Record Inv_ids (s : State) : Prop := {
  inv_reg : forall id a, actors s !! id = Some a -> id ∈ created_ids (trace s);
  inv_removed : forall id, In (EvRemoved id) (trace s) -> id ∈ created_ids (trace s)
}.

Lemma created_ids_app l tr : created_ids (l ++ tr) = created_ids l ++ created_ids tr.
Proof.
  induction l as [|e l IH]; simpl; [done|]. destruct e; simpl; by rewrite IH.
Qed.

Lemma extends_created s s' id :
  extends s s' -> id ∈ created_ids (trace s) -> id ∈ created_ids (trace s').
Proof.
  intros [l ->] H. rewrite created_ids_app. apply elem_of_app. by right.
Qed.

Lemma Inv_ids_step s s' :
  Inv_ids s -> extends s s' ->
  (forall id, In (EvRemoved id) (trace s') -> In (EvRemoved id) (trace s) \/ id ∈ created_ids (trace s')) ->
  (forall id a', actors s' !! id = Some a' -> (exists a, actors s !! id = Some a) \/ id ∈ created_ids (trace s')) ->
  Inv_ids s'.
Proof.
  intros [H1 H2] Hext Hrem Hkeys. split.
  - intros id a' Ha'. destruct (Hkeys id a' Ha') as [[a Ha]|Hc]; [|done].
    eapply extends_created; [exact Hext|]. by apply (H1 id a).
  - intros id Hin. destruct (Hrem id Hin) as [Hr|Hc]; [|done].
    eapply extends_created; [exact Hext|]. by apply H2.
Qed.

(** Updating a registered actor in place and logging a start or completion. *)
Lemma Inv_ids_update s id a a' e :
  actors s !! id = Some a -> (forall x, e <> EvRemoved x) -> (forall x, e <> EvCreated x) ->
  Inv_ids s -> Inv_ids (log_event (set_actors s (<[id := a']> (actors s))) e).
Proof.
  intros Ha He1 He2 HI. apply (Inv_ids_step s); [done|by eexists [_]| |].
  - intros x [Hx|Hx]; [by destruct (He1 x)|by left].
  - intros x b Hb. left. simpl in Hb. destruct (decide (id = x)) as [<-|Hne]; [by exists a|].
    rewrite lookup_insert_ne in Hb by done. by exists b.
Qed.

Lemma Inv_ids_register s sp : Inv_ids s -> Inv_ids (register (next_id s) sp s).
Proof.
  intros HI. apply (Inv_ids_step s); [done|by eexists [_]| |].
  - intros x [Hx|Hx]; [discriminate|by left].
  - intros x b Hb. destruct (decide (next_id s = x)) as [<-|Hne].
    + right. simpl. apply elem_of_cons. by left.
    + left. simpl in Hb. rewrite lookup_insert_ne in Hb by done. by exists b.
Qed.

Lemma Inv_ids_build_all fs s ids s' :
  Inv_ids s -> build_all fs s = inr (ids, s') -> Inv_ids s'.
Proof.
  revert s ids s'. induction fs as [|f fs IH]; intros s ids s' HI H; simpl in H.
  - by inversion H; subst.
  - destruct (f (next_id s)) as [e|sp]; [discriminate|].
    destruct (build_all fs (register (next_id s) sp s)) as [err|[ids0 s0]] eqn:E; [discriminate|].
    inversion H; subst. eapply IH; [|exact E]. by apply Inv_ids_register.
Qed.

Lemma Inv_ids_step_start id s : Inv_ids s -> Inv_ids (step_start id s).
Proof.
  intros HI. unfold step_start. destruct (actors s !! id) as [a|] eqn:Ha; [|done].
  destruct (running a), (mailbox a); try done. by apply (Inv_ids_update s id a).
Qed.

Lemma Inv_ids_step_finish id s : Inv_ids s -> Inv_ids (step_finish id s).
Proof.
  intros HI. unfold step_finish. destruct (actors s !! id) as [a|] eqn:Ha; [|done].
  destruct (running a); [|done]. by apply (Inv_ids_update s id a).
Qed.

Lemma Inv_ids_yield_all s : Inv_ids s -> Inv_ids (yield_all s).
Proof.
  unfold yield_all. generalize (map fst (map_to_list (actors s))) as l.
  intros l. revert s. induction l as [|id l IH]; intros s H; simpl; [done|].
  apply IH. unfold drain. generalize (mailbox_len id (step_finish id s)) as n.
  intros n. assert (H' : Inv_ids (step_finish id s)) by (by apply Inv_ids_step_finish).
  revert H'. generalize (step_finish id s) as s1. clear H.
  induction n as [|n IHn]; intros s1 H; simpl; [done|].
  apply IHn, Inv_ids_step_finish, Inv_ids_step_start, H.
Qed.

(** Operations that keep the registry keys and the history. *)
Lemma Inv_ids_same_keys s s' :
  trace s' = trace s -> (forall id a', actors s' !! id = Some a' -> exists a, actors s !! id = Some a) ->
  Inv_ids s -> Inv_ids s'.
Proof.
  intros Ht Hk HI. apply (Inv_ids_step s); [done|by exists []; rewrite Ht| |].
  - intros x Hx. left. by rewrite <- Ht.
  - intros x b Hb. left. by apply (Hk x b).
Qed.

Lemma Inv_ids_exec op s : Inv_ids s -> Inv_ids (exec op s).
Proof.
  intros HI. destruct op; simpl.
  - unfold actor_of. destruct (is_shut s); [done|].
    destruct (f (next_id s)); [done|]. by apply Inv_ids_register.
  - unfold actors_of. destruct (is_shut s); [done|].
    destruct (build_all fs s) as [err|[ids s']] eqn:E; [done|].
    by apply (Inv_ids_build_all fs s ids s').
  - unfold send. destruct (is_base_kind m); [done|]. destruct (is_shut s); [done|].
    destruct (actors s !! id) as [a|] eqn:Ha; simpl; apply (Inv_ids_same_keys s); try done.
    + intros x b Hb. simpl in Hb. destruct (decide (id = x)) as [<-|Hne]; [by exists a|].
      rewrite lookup_insert_ne in Hb by done. by exists b.
    + intros x b Hb. by exists b.
  - unfold publish. destruct (is_base_kind m); [done|]. destruct (is_shut s); [done|].
    simpl. apply (Inv_ids_same_keys s); try done.
    intros x b Hb. simpl in Hb. rewrite lookup_fmap in Hb.
    destruct (actors s !! x) as [a|]; [by exists a|discriminate].
  - unfold remove_actor. destruct (actors s !! id) as [a|] eqn:Ha; simpl; [|done].
    apply (Inv_ids_step s); [done|by eexists [_]| |].
    + intros x [Hx|Hx]; [|by left]. inversion Hx; subst. right.
      eapply extends_created; [by eexists [_]|]. by apply (inv_reg s HI x a).
    + intros x b Hb. left. simpl in Hb. rewrite lookup_delete_Some in Hb.
      destruct Hb as [_ Hb]. by exists b.
  - unfold wait_for_message.
    destruct (is_shut s); simpl; apply (Inv_ids_same_keys s); try done; intros x b Hb; by exists b.
  - apply (Inv_ids_same_keys s); try done; intros x b Hb; simpl in Hb; by rewrite lookup_empty in Hb.
  - by apply Inv_ids_step_start.
  - by apply Inv_ids_step_finish.
  - by apply Inv_ids_yield_all.
Qed.

Lemma reachable_Inv_ids s : reachable s -> Inv_ids s.
Proof.
  induction 1 as [|op s _ IH].
  - split; simpl; [intros id a Ha; by rewrite lookup_empty in Ha|intros id []].
  - by apply Inv_ids_exec.
Qed.

Lemma reachable_not_shut s id a : reachable s -> actors s !! id = Some a -> is_shut s = false.
Proof.
  intros Hr Ha. destruct (is_shut s) eqn:Hs; [|done].
  rewrite (inv_shut s (reachable_Inv s Hr) Hs), lookup_empty in Ha. discriminate.
Qed.

(** ** Identity and removal of actors *)

(** C8: over the whole lifetime of a system, every id is handed out once:
    the history records each creation, and no id appears in two creations;
    each registered actor carries the id it is registered under; and an id
    removed at any point of the lifetime is not handed out again by any
    later operations. *)
Theorem actor_ids_never_reused (s : State) (ops : list Op) :
  reachable s ->
  NoDup (created_ids (trace s)) /\
  (forall id a, actors s !! id = Some a -> actor_id a = id) /\
  exists new, trace (run ops s) = new ++ trace s /\
    forall id, In (EvRemoved id) (trace s) -> id ∉ created_ids new.
Proof.
  intros Hr. pose proof (reachable_Inv s Hr) as HI.
  split; [apply (inv_created s HI)|]. split.
  - intros id a Ha. apply (inv_keys s HI id a Ha).
  - destruct (run_extends ops s) as [new Hnew]. exists new. split; [done|].
    intros id Hrem Hc.
    pose proof (inv_created _ (reachable_Inv _ (reachable_run ops s Hr))) as Hnd.
    rewrite Hnew, created_ids_app in Hnd. apply NoDup_app in Hnd.
    destruct Hnd as [_ [Hdis _]]. apply (Hdis id Hc).
    by apply (inv_removed s (reachable_Inv_ids s Hr)).
Qed.

(** C9: in every reachable state, for every actor id, the starts and
    completions of handler invocations of that actor alternate, beginning
    with a start: a second invocation never starts while another one of the
    same actor is running. *)
Theorem handlers_sequential_per_actor (s : State) (id : nat) :
  reachable s -> sequential id (trace s) = true.
Proof.
  intros Hr. unfold sequential.
  destruct (bracket (proj id (trace s))) eqn:E; [done|].
  by destruct (inv_seq s (reachable_Inv s Hr) id).
Qed.

(** Handlers of different actors interleave: actor 1 starts while actor 0
    is still running. *)
Example interleaving_allowed :
  let s := run [OpActorOf TestBaseActor; OpActorOf TestBaseActor;
                OpPublish (BaseEvent "x"%string); OpStart 0; OpStart 1] init in
  trace s = [EvStarted 1 (BaseEvent "x"%string); EvStarted 0 (BaseEvent "x"%string);
             EvCreated 1; EvCreated 0].
Proof. vm_compute. reflexivity. Qed.

(** C4: after [remove_actor id] of a registered actor, [id] is no longer
    registered, and a [send] to it of any concrete message returns normally
    and records the diagnostic ["Actor {id} not found."] in the
    observability sink. *)
Theorem actor_removal_then_send (s : State) (id : nat) (a : Actor) (m : Message) :
  reachable s -> actors s !! id = Some a -> is_base_kind m = false ->
  fst (remove_actor id s) = inr tt /\
  actors (snd (remove_actor id s)) !! id = None /\
  send id m (snd (remove_actor id s)) =
    (inr tt, record_diag (snd (remove_actor id s)) (not_found_msg id)) /\
  head (diag (snd (send id m (snd (remove_actor id s))))) = Some (not_found_msg id).
Proof.
  intros Hr Ha Hm. pose proof (reachable_not_shut s id a Hr Ha) as Hs.
  unfold remove_actor. rewrite Ha. simpl.
  split; [done|]. split; [apply lookup_delete_eq|].
  unfold send. rewrite Hm. simpl. rewrite Hs, lookup_delete_eq. done.
Qed.

(** ** Batch creation *)

Lemma build_all_fails fs s i f e :
  fs !! i = Some f -> f (next_id s + i) = inl e ->
  (forall j g, j < i -> fs !! j = Some g -> exists sp, g (next_id s + j) = inr sp) ->
  build_all fs s = inl (FactoryError e).
Proof.
  revert s i. induction fs as [|f0 fs IH]; intros s i Hi Hf Hok; [discriminate|].
  simpl. destruct i as [|i].
  - simpl in Hi. inversion Hi; subst. rewrite Nat.add_0_r in Hf. by rewrite Hf.
  - destruct (Hok 0 f0 ltac:(lia) eq_refl) as [sp0 Hsp0].
    rewrite Nat.add_0_r in Hsp0. rewrite Hsp0.
    rewrite (IH (register (next_id s) sp0 s) i); [done|done| |].
    + rewrite <- Hf. simpl. f_equal. lia.
    + intros j g Hj Hg. simpl.
      replace (S (next_id s + j)) with (next_id s + S j) by lia.
      apply (Hok (S j) g); [lia|done].
Qed.

Lemma build_all_ok fs s :
  (forall j f, fs !! j = Some f -> exists sp, f (next_id s + j) = inr sp) ->
  exists s', build_all fs s = inr (seq (next_id s) (length fs), s') /\
    (forall k, k < next_id s -> actors s' !! k = actors s !! k) /\
    forall j f, fs !! j = Some f -> exists sp, f (next_id s + j) = inr sp /\
      actors s' !! (next_id s + j) = Some (make_actor (next_id s + j) sp).
Proof.
  revert s. induction fs as [|f0 fs IH]; intros s Hok.
  - exists s. split; [done|]. split; [done|]. intros j f Hj. by rewrite lookup_nil in Hj.
  - destruct (Hok 0 f0 eq_refl) as [sp0 Hsp0]. rewrite Nat.add_0_r in Hsp0.
    set (s1 := register (next_id s) sp0 s).
    destruct (IH s1) as [s' [Hb [Hkeep Hall]]].
    { intros j g Hg. simpl. replace (S (next_id s + j)) with (next_id s + S j) by lia.
      by apply (Hok (S j)). }
    exists s'. simpl. rewrite Hsp0. fold s1. rewrite Hb. split; [done|]. split.
    + intros k Hk. rewrite Hkeep by (simpl; lia). simpl.
      rewrite lookup_insert_ne by lia. done.
    + intros [|j] f Hf.
      * simpl in Hf. inversion Hf; subst. exists sp0. rewrite Nat.add_0_r. split; [done|].
        rewrite Hkeep by (simpl; lia). simpl. by rewrite lookup_insert_eq.
      * destruct (Hall j f Hf) as [sp [H1 H2]]. exists sp. simpl in H1, H2.
        replace (next_id s + S j) with (S (next_id s) + j) by lia. by split.
Qed.

(** C6: when every factory builds its actor, [actors_of [F1; ...; Fn]]
    returns n distinct ids, in the order of the factories; the i-th id is
    registered with the actor built by the i-th factory, so each actor is
    addressable by its own id. *)
Theorem actors_of_in_order (s : State) (fs : list Factory) :
  is_shut s = false ->
  (forall j f, fs !! j = Some f -> exists sp, f (next_id s + j) = inr sp) ->
  exists ids s', actors_of fs s = (inr ids, s') /\
    length ids = length fs /\ NoDup ids /\
    forall j f, fs !! j = Some f -> exists id sp,
      ids !! j = Some id /\ f id = inr sp /\
      actors s' !! id = Some (make_actor id sp) /\ actor_id (make_actor id sp) = id.
Proof.
  intros Hs Hok. destruct (build_all_ok fs s Hok) as [s' [Hb [_ Hall]]].
  exists (seq (next_id s) (length fs)), s'. split.
  { unfold actors_of. by rewrite Hs, Hb. }
  split; [apply length_seq|]. split; [apply NoDup_seq|].
  intros j f Hf. destruct (Hall j f Hf) as [sp [H1 H2]].
  exists (next_id s + j), sp. split; [|done].
  apply lookup_seq. split; [done|]. by apply lookup_lt_Some in Hf.
Qed.

(** C7: a factory that fails inside [actor_of] or [actors_of] makes the call
    fail with that factory's own error, and the system is left exactly as it
    was: the id the failing factory was offered is not registered, and in a
    batch none of the actors built before the failure stays registered. *)
Theorem factory_failure_no_registration (s : State) :
  reachable s -> is_shut s = false ->
  (forall f e, f (next_id s) = inl e ->
     actor_of f s = (inl (FactoryError e), s) /\ actors s !! next_id s = None) /\
  (forall fs i f e, fs !! i = Some f -> f (next_id s + i) = inl e ->
     (forall j g, j < i -> fs !! j = Some g -> exists sp, g (next_id s + j) = inr sp) ->
     actors_of fs s = (inl (FactoryError e), s) /\
     forall j, j <= i -> actors s !! (next_id s + j) = None).
Proof.
  intros Hr Hs. pose proof (reachable_Inv s Hr) as HI.
  assert (Hfree : forall k, next_id s <= k -> actors s !! k = None).
  { intros k Hk. destruct (actors s !! k) as [a|] eqn:Ha; [|done].
    destruct (inv_keys s HI k a Ha). lia. }
  split.
  - intros f e Hf. unfold actor_of. rewrite Hs, Hf. split; [done|]. apply Hfree. lia.
  - intros fs i f e Hi Hf Hok. unfold actors_of. rewrite Hs.
    rewrite (build_all_fails fs s i f e Hi Hf Hok). split; [done|].
    intros j _. apply Hfree. lia.
Qed.

(** ** Publication reaches every handler after one scheduling round *)

Lemma step_start_other id id' s : id' <> id -> actors (step_start id' s) !! id = actors s !! id.
Proof.
  intros Hne. unfold step_start. destruct (actors s !! id') as [a|]; [|done].
  destruct (running a), (mailbox a); try done. simpl. by rewrite lookup_insert_ne.
Qed.

Lemma step_finish_other id id' s : id' <> id -> actors (step_finish id' s) !! id = actors s !! id.
Proof.
  intros Hne. unfold step_finish. destruct (actors s !! id') as [a|]; [|done].
  destruct (running a); [|done]. simpl. by rewrite lookup_insert_ne.
Qed.

Lemma drain_other id id' s : id' <> id -> actors (drain id' s) !! id = actors s !! id.
Proof.
  intros Hne. unfold drain. generalize (mailbox_len id' (step_finish id' s)) as n.
  intros n. rewrite <- (step_finish_other id id' s Hne).
  generalize (step_finish id' s) as s1. induction n as [|n IH]; intros s1; simpl; [done|].
  rewrite IH, step_finish_other, step_start_other by done. done.
Qed.

(** Every message queued for an idle actor is handled by [drain_n]. *)
Lemma drain_n_handles id m n s a :
  actors s !! id = Some a -> running a = None -> List.length (mailbox a) <= n ->
  In m (mailbox a) -> In (EvFinished id m) (trace (drain_n n id s)).
Proof.
  revert s a. induction n as [|n IH]; intros s a Ha Hr Hlen Hin.
  - destruct (mailbox a); [done|simpl in Hlen; lia].
  - simpl. destruct (mailbox a) as [|m0 ms] eqn:Hm; [done|].
    set (a1 := mkActor (actor_id a) (dispatch a) (received a) ms (Some m0)).
    assert (Hs1 : step_start id s =
      log_event (set_actors s (<[id := a1]> (actors s))) (EvStarted id m0)).
    { unfold step_start. by rewrite Ha, Hr, Hm. }
    set (a2 := mkActor (actor_id a1) (dispatch a1) (run_handler a1 m0) (mailbox a1) None).
    assert (Hs2 : step_finish id (step_start id s) =
      log_event (set_actors (step_start id s) (<[id := a2]> (actors (step_start id s))))
                (EvFinished id m0)).
    { unfold step_finish. rewrite Hs1. simpl. by rewrite lookup_insert_eq. }
    destruct Hin as [<-|Hin].
    + eapply extends_In; [apply drain_n_extends|]. rewrite Hs2. by left.
    + apply (IH _ a2); [|done|simpl in Hlen |- *; lia|done].
      rewrite Hs2. simpl. by rewrite lookup_insert_eq.
Qed.

(** Every message queued for an actor, or being handled by it, is handled
    by [drain]. *)
Lemma drain_handles id m s a :
  actors s !! id = Some a -> (In m (mailbox a) \/ running a = Some m) ->
  In (EvFinished id m) (trace (drain id s)).
Proof.
  intros Ha Hm. unfold drain. unfold step_finish at 1 2. rewrite Ha.
  destruct (running a) as [m0|] eqn:Hr.
  - set (a1 := mkActor (actor_id a) (dispatch a) (run_handler a m0) (mailbox a) None).
    destruct Hm as [Hin|Heq].
    + apply (drain_n_handles id m _ _ a1); [simpl; by rewrite lookup_insert_eq|done| |done].
      unfold mailbox_len. simpl. rewrite lookup_insert_eq. simpl. lia.
    + inversion Heq; subst.
      eapply extends_In; [apply drain_n_extends|]. by left.
  - destruct Hm as [Hin|Heq]; [|discriminate].
    apply (drain_n_handles id m _ _ a); [done|done| |done].
    unfold mailbox_len. rewrite Ha. lia.
Qed.

Lemma fold_drain_handles id m l s :
  (In (EvFinished id m) (trace s) \/
   exists a, actors s !! id = Some a /\ (In m (mailbox a) \/ running a = Some m)) ->
  In id l ->
  In (EvFinished id m) (trace (fold_left (fun s id => drain id s) l s)).
Proof.
  revert s. induction l as [|x l IH]; intros s HQ Hl; [done|]. simpl.
  destruct (decide (x = id)) as [->|Hne].
  - eapply extends_In; [apply fold_drain_extends|].
    destruct HQ as [Hin|[a [Ha Hm]]].
    + eapply extends_In; [apply drain_extends|done].
    + by apply (drain_handles id m s a).
  - destruct Hl as [Hx|Hl]; [done|]. apply IH; [|done].
    destruct HQ as [Hin|[a [Ha Hm]]].
    + left. eapply extends_In; [apply drain_extends|done].
    + right. exists a. by rewrite drain_other.
Qed.

(** ** Which invocations a scheduling round completes *)

Lemma finished_of_app id x y : finished_of id (x ++ y) = finished_of id x ++ finished_of id y.
Proof.
  induction x as [|e x IH]; [done|]. destruct e as [i|i|i m|i m]; simpl; try done.
  destruct (Nat.eqb id i); simpl; by rewrite IH.
Qed.

Lemma finished_of_other id l : Forall (fun e => ev_id e <> id) l -> finished_of id l = [].
Proof.
  induction 1 as [|e l He _ IH]; [done|].
  destruct e as [i|i|i m|i m]; simpl in *; try done.
  destruct (Nat.eqb_spec id i); [congruence|done].
Qed.

(** The events a step of actor [id] adds to the history are all about [id]. *)
Definition adds_about (id : nat) (s s' : State) : Prop :=
  exists l, trace s' = l ++ trace s /\ Forall (fun e => ev_id e = id) l.

Lemma adds_about_refl id s : adds_about id s s.
Proof. by exists []. Qed.

Lemma adds_about_trans id s1 s2 s3 :
  adds_about id s1 s2 -> adds_about id s2 s3 -> adds_about id s1 s3.
Proof.
  intros [l1 [H1 F1]] [l2 [H2 F2]]. exists (l2 ++ l1).
  split; [by rewrite H2, H1, app_assoc|by apply Forall_app].
Qed.

Lemma step_start_about id s : adds_about id s (step_start id s).
Proof.
  unfold step_start. destruct (actors s !! id) as [a|]; [|apply adds_about_refl].
  destruct (running a), (mailbox a); try apply adds_about_refl.
  exists [EvStarted id m]. split; [done|]. by repeat constructor.
Qed.

Lemma step_finish_about id s : adds_about id s (step_finish id s).
Proof.
  unfold step_finish. destruct (actors s !! id) as [a|]; [|apply adds_about_refl].
  destruct (running a) as [m|]; [|apply adds_about_refl].
  exists [EvFinished id m]. split; [done|]. by repeat constructor.
Qed.

Lemma drain_about id s : adds_about id s (drain id s).
Proof.
  unfold drain. eapply adds_about_trans; [apply step_finish_about|].
  generalize (mailbox_len id (step_finish id s)) as n. generalize (step_finish id s) as s1.
  intros s1 n. revert s1. induction n as [|n IH]; intros s1; simpl; [apply adds_about_refl|].
  eapply adds_about_trans; [|apply IH].
  eapply adds_about_trans; [apply step_start_about|apply step_finish_about].
Qed.

(** A round over ids other than [id] completes no invocation of [id]. *)
Lemma fold_drain_not_in id l s :
  ~ In id l ->
  exists new, trace (fold_left (fun s id => drain id s) l s) = new ++ trace s /\
              finished_of id new = [].
Proof.
  revert s. induction l as [|x l IH]; intros s Hl; simpl; [by exists []|].
  destruct (drain_about x s) as [l1 [H1 F1]].
  destruct (IH (drain x s)) as [l2 [H2 F2]]; [naive_solver|].
  exists (l2 ++ l1). split; [by rewrite H2, H1, app_assoc|].
  rewrite finished_of_app, F2, finished_of_other; [done|].
  eapply Forall_impl; [exact F1|]. intros e ->. naive_solver.
Qed.

(** [drain_n] on an idle actor completes its queued messages in order. *)
Lemma drain_n_finished n id s a :
  actors s !! id = Some a -> running a = None -> List.length (mailbox a) <= n ->
  exists new, trace (drain_n n id s) = new ++ trace s /\ rev (finished_of id new) = mailbox a.
Proof.
  revert s a. induction n as [|n IH]; intros s a Ha Hr Hlen.
  - destruct (mailbox a) eqn:Hm; [by exists []|simpl in Hlen; lia].
  - simpl. destruct (mailbox a) as [|m0 ms] eqn:Hm.
    + assert (E : step_finish id (step_start id s) = s).
      { unfold step_start. rewrite Ha, Hr, Hm. unfold step_finish. by rewrite Ha, Hr. }
      rewrite E. destruct (IH s a Ha Hr) as [new [H1 H2]]; [rewrite Hm; simpl; lia|].
      exists new. by rewrite Hm in H2.
    + set (a1 := mkActor (actor_id a) (dispatch a) (received a) ms (Some m0)).
      set (a2 := mkActor (actor_id a1) (dispatch a1) (run_handler a1 m0) ms None).
      set (s1 := log_event (set_actors s (<[id := a1]> (actors s))) (EvStarted id m0)).
      assert (Hs1 : step_start id s = s1).
      { unfold step_start. by rewrite Ha, Hr, Hm. }
      assert (Hs2 : step_finish id s1 =
        log_event (set_actors s1 (<[id := a2]> (actors s1))) (EvFinished id m0)).
      { unfold step_finish. simpl. by rewrite lookup_insert_eq. }
      rewrite Hs1, Hs2.
      destruct (IH (log_event (set_actors s1 (<[id := a2]> (actors s1))) (EvFinished id m0)) a2) as [new [H1 H2]];
        [simpl; by rewrite lookup_insert_eq|done|simpl in Hlen |- *; lia|].
      exists (new ++ [EvFinished id m0; EvStarted id m0]). split.
      * rewrite H1. simpl. by rewrite <- app_assoc.
      * rewrite finished_of_app. simpl. rewrite Nat.eqb_refl, rev_app_distr. simpl.
        by rewrite H2.
Qed.

(** [drain] completes the invocation in progress, then the queued ones. *)
Lemma drain_finished id s a :
  actors s !! id = Some a ->
  exists new, trace (drain id s) = new ++ trace s /\
              rev (finished_of id new) = opt_list (running a) ++ mailbox a.
Proof.
  intros Ha. unfold drain. unfold step_finish at 1 2. rewrite Ha.
  destruct (running a) as [m0|] eqn:Hr.
  - set (a1 := mkActor (actor_id a) (dispatch a) (run_handler a m0) (mailbox a) None).
    destruct (drain_n_finished (mailbox_len id (log_event (set_actors s (<[id:=a1]> (actors s)))
                                  (EvFinished id m0))) id
                (log_event (set_actors s (<[id:=a1]> (actors s))) (EvFinished id m0)) a1)
      as [new [H1 H2]].
    + simpl. by rewrite lookup_insert_eq.
    + done.
    + unfold mailbox_len. simpl. rewrite lookup_insert_eq. simpl. lia.
    + exists (new ++ [EvFinished id m0]). split.
      * rewrite H1. simpl. by rewrite <- app_assoc.
      * rewrite finished_of_app. simpl. rewrite Nat.eqb_refl, rev_app_distr. simpl.
        by rewrite H2.
  - destruct (drain_n_finished (mailbox_len id s) id s a) as [new [H1 H2]];
      [done|done|unfold mailbox_len; rewrite Ha; lia|].
    by exists new.
Qed.

(** A round over distinct ids including [id] completes, for [id], exactly
    the invocation in progress and the queued ones. *)
Lemma fold_drain_finished id a l s :
  NoDup l -> In id l -> actors s !! id = Some a ->
  exists new, trace (fold_left (fun s id => drain id s) l s) = new ++ trace s /\
              rev (finished_of id new) = opt_list (running a) ++ mailbox a.
Proof.
  revert s. induction l as [|x l IH]; intros s Hnd Hl Ha; [done|]. simpl.
  inversion Hnd as [|x0 l0 Hx Hnd']; subst.
  destruct (decide (x = id)) as [->|Hne].
  - destruct (drain_finished id s a Ha) as [l1 [H1 F1]].
    destruct (fold_drain_not_in id l (drain id s) (fun H => Hx (proj2 (list_elem_of_In _ _) H))) as [l2 [H2 F2]].
    exists (l2 ++ l1). split; [by rewrite H2, H1, app_assoc|].
    by rewrite finished_of_app, F2.
  - destruct Hl as [Hx'|Hl]; [done|].
    destruct (drain_about x s) as [l1 [H1 F1]].
    destruct (IH (drain x s)) as [l2 [H2 F2]]; [done|done|by rewrite drain_other|].
    exists (l2 ++ l1). split; [by rewrite H2, H1, app_assoc|].
    rewrite finished_of_app, (finished_of_other id l1), app_nil_r; [done|].
    eapply Forall_impl; [exact F1|]. intros e ->. done.
Qed.

Lemma map_fst_fmap {A B} (l : list (A * B)) : map fst l = l.*1.
Proof. induction l as [|x l IH]; [done|]. simpl. by rewrite IH. Qed.

(** C1: in a system reached by any sequence of operations, publishing
    [Event(content=C)] succeeds, and for every registered actor whose
    dispatch table handles [Event], the handler invocations the following
    scheduling round adds to the history for that actor are, oldest first,
    the one it had in progress, the messages queued before, and last this
    very event, whose content is [C]: after the round every such actor has
    run its handler to completion on it. (With no such actor the statement
    is vacuous, the case N = 0.) *)
Theorem publish_reaches_event_handlers (s : State) (c : string) (id : nat) (a : Actor) :
  reachable s -> actors s !! id = Some a -> handles a KEvent = true ->
  fst (publish (BaseEvent c) s) = inr tt /\
  exists new, trace (yield_all (snd (publish (BaseEvent c) s))) = new ++ trace s /\
              rev (finished_of id new) = opt_list (running a) ++ mailbox a ++ [BaseEvent c].
Proof.
  intros Hr Ha Hh. pose proof (reachable_not_shut s id a Hr Ha) as Hs.
  unfold publish. simpl. rewrite Hs. split; [done|].
  set (s1 := mkState _ _ _ _ _ _ _ _).
  assert (H1 : actors s1 !! id = Some (deliver (BaseEvent c) a)).
  { simpl. by rewrite lookup_fmap, Ha. }
  unfold yield_all.
  destruct (fold_drain_finished id (deliver (BaseEvent c) a)
              (map fst (map_to_list (actors s1))) s1) as [new [E F]].
  - rewrite map_fst_fmap. apply NoDup_fst_map_to_list.
  - apply (in_map fst (map_to_list (actors s1)) (id, deliver (BaseEvent c) a)).
    apply list_elem_of_In. by apply elem_of_map_to_list.
  - exact H1.
  - exists new. split; [exact E|]. rewrite F.
    unfold deliver. simpl. rewrite Hh. done.
Qed.

(** * Concrete runs *)

Definition test_spec : ActorSpec := mkSpec [(KEvent, record_content)] None.

Definition two_test_actors : State :=
  run [OpActorOf TestBaseActor; OpActorOf TestBaseActor] init.

Definition failing_factory : Factory := fun _ => inl "boom"%string.

(** A batch whose second factory fails leaves the system untouched. *)
Example actors_of_failing_batch :
  actors_of [TestBaseActor; failing_factory] init = (inl (FactoryError "boom"%string), init).
Proof. reflexivity. Qed.

Lemma publish_reaches_event_handlers_witness :
  reachable two_test_actors /\
  actors two_test_actors !! 1 = Some (make_actor 1 test_spec) /\
  handles (make_actor 1 test_spec) KEvent = true /\
  (fst (publish (BaseEvent "Content"%string) two_test_actors) = inr tt /\
   exists new, trace (yield_all (snd (publish (BaseEvent "Content"%string) two_test_actors)))
                 = new ++ trace two_test_actors /\
               rev (finished_of 1 new) = [BaseEvent "Content"%string]).
Proof.
  split; [apply reachable_run, reach_init|].
  split; [vm_compute; reflexivity|]. split; [reflexivity|].
  exact (publish_reaches_event_handlers two_test_actors "Content"%string 1 (make_actor 1 test_spec)
    (reachable_run _ _ reach_init) eq_refl eq_refl).
Defined.

Definition c2_ops : list Op := [OpActorOf TestBaseActor; OpPublish (BaseCommand "other"%string); OpYield].

Lemma wait_for_event_sequentially_witness :
  Forall no_event_publish c2_ops /\
  fst (publish (BaseEvent "Test event for waiting"%string)
         (run c2_ops (snd (wait_for_message KEvent init)))) = inr tt /\
  exists m,
    lookup_result (fst (wait_for_message KEvent init))
      (snd (publish (BaseEvent "Test event for waiting"%string)
              (run c2_ops (snd (wait_for_message KEvent init))))) = Some (Resolved m)
    /\ content m = "Test event for waiting"%string.
Proof.
  assert (Hops : Forall no_event_publish c2_ops) by (repeat (constructor || (simpl; discriminate))).
  assert (Hok : fst (publish (BaseEvent "Test event for waiting"%string)
         (run c2_ops (snd (wait_for_message KEvent init)))) = inr tt) by (vm_compute; reflexivity).
  split; [exact Hops|]. split; [exact Hok|].
  exact (wait_for_event_sequentially init c2_ops "Test event for waiting"%string Hops Hok).
Defined.

Definition one_base_actor : State := run [OpActorOf BaseActorF] init.

Lemma actor_removal_then_send_witness :
  reachable one_base_actor /\
  actors one_base_actor !! 0 = Some (make_actor 0 (mkSpec [] None)) /\
  is_base_kind (BaseEvent "Message to removed actor."%string) = false /\
  (fst (remove_actor 0 one_base_actor) = inr tt /\
   actors (snd (remove_actor 0 one_base_actor)) !! 0 = None /\
   send 0 (BaseEvent "Message to removed actor."%string) (snd (remove_actor 0 one_base_actor)) =
     (inr tt, record_diag (snd (remove_actor 0 one_base_actor)) (not_found_msg 0)) /\
   head (diag (snd (send 0 (BaseEvent "Message to removed actor."%string)
                     (snd (remove_actor 0 one_base_actor))))) = Some (not_found_msg 0)).
Proof.
  split; [apply reachable_run, reach_init|].
  split; [vm_compute; reflexivity|]. split; [reflexivity|].
  apply (actor_removal_then_send one_base_actor 0 (make_actor 0 (mkSpec [] None)));
    [apply reachable_run, reach_init|vm_compute; reflexivity|reflexivity].
Defined.

Example removed_actor_diagnostic :
  diag (snd (send 0 (BaseEvent "Message to removed actor."%string)
               (snd (remove_actor 0 one_base_actor)))) = ["Actor 0 not found."%string].
Proof. vm_compute. reflexivity. Qed.

Lemma actors_of_in_order_witness :
  is_shut init = false /\
  (forall j f, [TestBaseActor; BaseActorF] !! j = Some f -> exists sp, f (next_id init + j) = inr sp) /\
  exists ids s', actors_of [TestBaseActor; BaseActorF] init = (inr ids, s') /\
    length ids = length [TestBaseActor; BaseActorF] /\ NoDup ids /\
    forall j f, [TestBaseActor; BaseActorF] !! j = Some f -> exists id sp,
      ids !! j = Some id /\ f id = inr sp /\
      actors s' !! id = Some (make_actor id sp) /\ actor_id (make_actor id sp) = id.
Proof.
  assert (Hok : forall j f, [TestBaseActor; BaseActorF] !! j = Some f ->
                  exists sp, f (next_id init + j) = inr sp).
  { intros [|[|j]] f Hj; simpl in Hj; inversion Hj; subst; eexists; reflexivity. }
  split; [reflexivity|]. split; [exact Hok|].
  exact (actors_of_in_order init [TestBaseActor; BaseActorF] eq_refl Hok).
Defined.

Lemma factory_failure_no_registration_witness :
  reachable one_base_actor /\ is_shut one_base_actor = false /\
  ((forall f e, f (next_id one_base_actor) = inl e ->
     actor_of f one_base_actor = (inl (FactoryError e), one_base_actor) /\
     actors one_base_actor !! next_id one_base_actor = None) /\
   (forall fs i f e, fs !! i = Some f -> f (next_id one_base_actor + i) = inl e ->
     (forall j g, j < i -> fs !! j = Some g -> exists sp, g (next_id one_base_actor + j) = inr sp) ->
     actors_of fs one_base_actor = (inl (FactoryError e), one_base_actor) /\
     forall j, j <= i -> actors one_base_actor !! (next_id one_base_actor + j) = None)).
Proof.
  split; [apply reachable_run, reach_init|]. split; [reflexivity|].
  apply factory_failure_no_registration; [apply reachable_run, reach_init|reflexivity].
Defined.

Definition removed_once : State := run [OpActorOf TestBaseActor; OpRemove 0] init.

Lemma actor_ids_never_reused_witness :
  reachable removed_once /\
  (NoDup (created_ids (trace removed_once)) /\
   (forall id a, actors removed_once !! id = Some a -> actor_id a = id) /\
   exists new, trace (run [OpActorOf TestBaseActor; OpActorOf BaseActorF] removed_once) = new ++ trace removed_once /\
     forall id, In (EvRemoved id) (trace removed_once) -> id ∉ created_ids new).
Proof.
  split; [apply reachable_run, reach_init|].
  apply actor_ids_never_reused. apply reachable_run, reach_init.
Defined.

Definition interleaved : State :=
  run [OpActorOf TestBaseActor; OpActorOf TestBaseActor;
       OpPublish (BaseEvent "x"%string); OpStart 0; OpStart 1; OpFinish 0] init.

Lemma handlers_sequential_per_actor_witness :
  reachable interleaved /\ sequential 1 (trace interleaved) = true.
Proof.
  split; [apply reachable_run, reach_init|].
  apply handlers_sequential_per_actor. apply reachable_run, reach_init.
Defined.

Definition waiting : State := snd (wait_for_message KEvent init).

Lemma publish_resolves_without_actors_witness :
  is_shut waiting = false /\ KEvent <> KBase /\ In (0, KEvent) (waiters waiting) /\
  ((fst (publish (mkMsg KEvent "x"%string) (set_actors waiting ∅)) = inr tt /\
    lookup_result 0 (snd (publish (mkMsg KEvent "x"%string) (set_actors waiting ∅)))
      = Some (Resolved (mkMsg KEvent "x"%string))) /\
   waiters (snd (publish (mkMsg KEvent "x"%string) waiting))
     = waiters (snd (publish (mkMsg KEvent "x"%string) (set_actors waiting ∅))) /\
   results (snd (publish (mkMsg KEvent "x"%string) waiting))
     = results (snd (publish (mkMsg KEvent "x"%string) (set_actors waiting ∅)))).
Proof.
  assert (H1 : is_shut waiting = false) by reflexivity.
  assert (H2 : KEvent <> KBase) by discriminate.
  assert (H3 : In (0, KEvent) (waiters waiting)) by (simpl; left; reflexivity).
  split; [exact H1|]. split; [exact H2|]. split; [exact H3|].
  exact (publish_resolves_without_actors waiting 0 KEvent "x"%string H1 H2 H3).
Defined.

(** * Further properties: the test file's sink, scheduling rounds, and
      the callers of the system *)

(** ** Strings of the sink *)

Lemma str_app_assoc (x y z : string) : ((x +:+ y) +:+ z)%string = (x +:+ y +:+ z)%string.
Proof. induction x as [|ch x IH]; [reflexivity|exact (f_equal (String ch) IH)]. Qed.

Lemma str_app_nil_r (x : string) : (x +:+ "")%string = x.
Proof. induction x as [|ch x IH]; [reflexivity|exact (f_equal (String ch) IH)]. Qed.

Lemma foldr_append_init (l : list string) (x : string) :
  foldr String.append x l = (foldr String.append ""%string l +:+ x)%string.
Proof.
  induction l as [|y l IH]; simpl; [reflexivity|]. rewrite IH. symmetry. apply str_app_assoc.
Qed.

Lemma sink_writes_messages sink ws : messages (sink_writes sink ws) = messages sink ++ ws.
Proof.
  revert sink. induction ws as [|w ws IH]; intros sink; simpl.
  - by rewrite app_nil_r.
  - unfold sink_writes in *. simpl. rewrite IH. simpl. by rewrite <- app_assoc.
Qed.

Lemma concat_substring (ws : list string) (w : string) :
  In w ws -> is_substring w (foldr String.append ""%string ws).
Proof.
  intros Hin. destruct (in_split w ws Hin) as [l1 [l2 ->]].
  exists (foldr String.append ""%string l1), (foldr String.append ""%string l2).
  rewrite foldr_app. simpl. by rewrite foldr_append_init.
Qed.

(** ** One scheduling round *)

Lemma drain_n_result n id s a :
  actors s !! id = Some a -> running a = None -> List.length (mailbox a) <= n ->
  actors (drain_n n id s) !! id =
    Some (mkActor (actor_id a) (dispatch a) (handle_all (dispatch a) (mailbox a) (received a)) [] None).
Proof.
  revert s a. induction n as [|n IH]; intros s a Ha Hr Hlen.
  - destruct a as [i d r mb run]; simpl in *. destruct mb; [|simpl in Hlen; lia].
    subst. done.
  - simpl. destruct (mailbox a) as [|m0 ms] eqn:Hm.
    + assert (Hs1 : step_finish id (step_start id s) = s).
      { unfold step_start. rewrite Ha, Hr, Hm. unfold step_finish. by rewrite Ha, Hr. }
      rewrite Hs1. rewrite (IH s a Ha Hr) by (rewrite Hm; simpl; lia). by rewrite Hm.
    + set (a1 := mkActor (actor_id a) (dispatch a) (received a) ms (Some m0)).
      set (a2 := mkActor (actor_id a) (dispatch a) (apply_handler (dispatch a) m0 (received a)) ms None).
      assert (Hs2 : actors (step_finish id (step_start id s)) =
                    <[id := a2]> (<[id := a1]> (actors s))).
      { unfold step_start. rewrite Ha, Hr, Hm. unfold step_finish. simpl.
        rewrite lookup_insert_eq. simpl. reflexivity. }
      rewrite (IH _ a2); [done| |done|simpl in Hlen |- *; lia].
      rewrite Hs2. by rewrite lookup_insert_eq.
Qed.

Lemma drain_result id s a :
  actors s !! id = Some a -> actors (drain id s) !! id = Some (drained_actor a).
Proof.
  intros Ha. unfold drain, drained_actor. unfold step_finish at 1 2. rewrite Ha.
  destruct (running a) as [m0|] eqn:Hr.
  - set (a1 := mkActor (actor_id a) (dispatch a) (run_handler a m0) (mailbox a) None).
    rewrite (drain_n_result _ id _ a1); [done|simpl; by rewrite lookup_insert_eq|done|].
    unfold mailbox_len. simpl. rewrite lookup_insert_eq. simpl. lia.
  - rewrite (drain_n_result _ id _ a); [done|done|done|].
    unfold mailbox_len. rewrite Ha. lia.
Qed.

Lemma drain_lookup x id s :
  actors (drain x s) !! id =
    if decide (x = id) then drained_actor <$> actors s !! id else actors s !! id.
Proof.
  destruct (decide (x = id)) as [<-|Hne]; [|by apply drain_other].
  destruct (actors s !! x) as [a|] eqn:Ha; simpl; [by apply drain_result|].
  unfold drain. unfold step_finish at 1 2. rewrite Ha.
  unfold mailbox_len. rewrite Ha. done.
Qed.

Lemma drained_actor_idem a : drained_actor (drained_actor a) = drained_actor a.
Proof. reflexivity. Qed.

Lemma fold_drain_lookup l s id :
  actors (fold_left (fun s id => drain id s) l s) !! id =
    if bool_decide (id ∈ l) then drained_actor <$> actors s !! id else actors s !! id.
Proof.
  revert s. induction l as [|x l IH]; intros s; simpl; [done|].
  rewrite IH, !drain_lookup.
  destruct (decide (x = id)) as [->|Hne].
  - rewrite (bool_decide_eq_true_2 (id ∈ id :: l)) by (apply elem_of_cons; by left).
    destruct (bool_decide (id ∈ l)); [|done].
    destruct (actors s !! id); simpl; [by rewrite drained_actor_idem|done].
  - destruct (bool_decide (id ∈ l)) eqn:E1;
      [rewrite bool_decide_eq_true in E1|rewrite bool_decide_eq_false in E1].
    + rewrite bool_decide_eq_true_2; [done|]. apply elem_of_cons. by right.
    + rewrite bool_decide_eq_false_2; [done|]. rewrite elem_of_cons. intros [Hx|Hx]; done.
Qed.

Lemma yield_all_lookup s id :
  actors (yield_all s) !! id = drained_actor <$> actors s !! id.
Proof.
  unfold yield_all. rewrite fold_drain_lookup.
  case_bool_decide as Hin; [done|].
  destruct (actors s !! id) as [a|] eqn:Ha; [|done].
  exfalso. apply Hin. apply list_elem_of_In.
  apply (in_map fst (map_to_list (actors s)) (id, a)).
  apply list_elem_of_In. by apply elem_of_map_to_list.
Qed.

Lemma handle_all_last d ms m r :
  handle_all d (ms ++ [m]) r = apply_handler d m (handle_all d ms r).
Proof. unfold handle_all. by rewrite fold_left_app. Qed.

(** ** Extra properties *)

(** [LogSink]: every message written to the sink, whatever was written
    before or after it, occurs in [str(sink)]. *)
Theorem log_sink_contains_written (sink : LogSink) (ws : list string) (w : string) :
  In w ws -> is_substring w (sink_str (sink_writes sink ws)).
Proof.
  intros Hin. unfold sink_str. rewrite sink_writes_messages.
  apply concat_substring. apply in_or_app. by right.
Qed.

(** [test_actor_removal], for every registered actor and every concrete
    message: after removal and a send to the removed id, the text the sink
    received contains ["Actor {id} not found."]. *)
Theorem actor_removal_logged (s : State) (id : nat) (a : Actor) (m : Message) :
  reachable s -> actors s !! id = Some a -> is_base_kind m = false ->
  is_substring (not_found_msg id)
    (sink_str (sink_of_diag (snd (send id m (snd (remove_actor id s)))))).
Proof.
  intros Hr Ha Hm. pose proof (reachable_not_shut s id a Hr Ha) as Hs.
  unfold remove_actor. rewrite Ha. simpl.
  unfold send. rewrite Hm. simpl. rewrite Hs, lookup_delete_eq. simpl.
  unfold sink_of_diag, sink_str. simpl. rewrite sink_writes_messages. simpl.
  rewrite map_app. simpl.
  destruct (concat_substring (map log_record (rev (diag s)) ++ [log_record (not_found_msg id)])
              (log_record (not_found_msg id))) as [pre [post Hp]].
  { apply in_or_app. right. by left. }
  rewrite Hp. exists pre, (String (Ascii.ascii_of_nat 10) EmptyString +:+ post)%string.
  unfold log_record. f_equal. apply str_app_assoc.
Qed.

(** [test_actor_creation]: [actor_of] on a live system whose factory builds
    the actor returns a fresh id, under which that actor is then found;
    every other entry of the registry is unchanged. *)
Theorem actor_of_registers (s : State) (f : Factory) (sp : ActorSpec) :
  reachable s -> is_shut s = false -> f (next_id s) = inr sp ->
  fst (actor_of f s) = inr (next_id s) /\
  actors s !! next_id s = None /\
  actors (snd (actor_of f s)) !! next_id s = Some (make_actor (next_id s) sp) /\
  forall k, k <> next_id s -> actors (snd (actor_of f s)) !! k = actors s !! k.
Proof.
  intros Hr Hs Hf. unfold actor_of. rewrite Hs, Hf. simpl.
  split; [done|]. split.
  - destruct (actors s !! next_id s) as [a|] eqn:Ha; [|done].
    destruct (inv_keys s (reachable_Inv s Hr) _ a Ha). lia.
  - split; [apply lookup_insert_eq|]. intros k Hk. by apply lookup_insert_ne.
Qed.

Definition touches (id : nat) (op : Op) : Prop :=
  match op with OpRemove x => x = id | OpShutdown => True | _ => False end.

Lemma build_all_keep fs s ids s' :
  build_all fs s = inr (ids, s') -> forall k, k < next_id s -> actors s' !! k = actors s !! k.
Proof.
  revert s ids s'. induction fs as [|f fs IH]; intros s ids s' H k Hk; simpl in H.
  - by inversion H; subst.
  - destruct (f (next_id s)) as [e|sp]; [discriminate|].
    destruct (build_all fs (register (next_id s) sp s)) as [err|[ids0 s0]] eqn:E; [discriminate|].
    inversion H; subst. rewrite (IH _ _ _ E k) by (simpl; lia). simpl.
    apply lookup_insert_ne. lia.
Qed.

Definition same_actor (a a' : Actor) : Prop :=
  actor_id a' = actor_id a /\ dispatch a' = dispatch a.

Lemma exec_keeps_actor op s id a :
  reachable s -> actors s !! id = Some a -> ~ touches id op ->
  exists a', actors (exec op s) !! id = Some a' /\ same_actor a a'.
Proof.
  intros Hr Ha Hop. pose proof (reachable_Inv s Hr) as HI.
  assert (Hlt : id < next_id s) by apply (inv_keys s HI id a Ha).
  destruct op; simpl.
  - unfold actor_of. destruct (is_shut s); [by exists a|].
    destruct (f (next_id s)); [by exists a|]. exists a. simpl.
    rewrite lookup_insert_ne by lia. done.
  - unfold actors_of. destruct (is_shut s); [by exists a|].
    destruct (build_all fs s) as [err|[ids s']] eqn:E; [by exists a|].
    exists a. simpl. by rewrite (build_all_keep fs s ids s' E id Hlt).
  - unfold send. destruct (is_base_kind m); [by exists a|]. destruct (is_shut s); [by exists a|].
    destruct (actors s !! id0) as [b|] eqn:Hb; simpl; [|by exists a].
    destruct (decide (id0 = id)) as [<-|Hne].
    + rewrite lookup_insert_eq. exists (deliver m b). rewrite Ha in Hb. inversion Hb; subst.
      unfold deliver, same_actor. by destruct (handles b (kind m)).
    + rewrite lookup_insert_ne by done. by exists a.
  - unfold publish. destruct (is_base_kind m); [by exists a|]. destruct (is_shut s); [by exists a|].
    simpl. rewrite lookup_fmap, Ha. exists (deliver m a). simpl.
    unfold deliver, same_actor. by destruct (handles a (kind m)).
  - unfold remove_actor. simpl in Hop.
    destruct (actors s !! id0); simpl; [|by exists a].
    rewrite lookup_delete_ne by congruence. by exists a.
  - unfold wait_for_message. destruct (is_shut s); by exists a.
  - done.
  - unfold step_start. destruct (actors s !! id0) as [b|] eqn:Hb; [|by exists a].
    destruct (running b), (mailbox b); try by exists a. simpl.
    destruct (decide (id0 = id)) as [<-|Hne].
    + rewrite lookup_insert_eq. rewrite Ha in Hb. inversion Hb; subst. eexists; by split.
    + rewrite lookup_insert_ne by done. by exists a.
  - unfold step_finish. destruct (actors s !! id0) as [b|] eqn:Hb; [|by exists a].
    destruct (running b); [|by exists a]. simpl.
    destruct (decide (id0 = id)) as [<-|Hne].
    + rewrite lookup_insert_eq. rewrite Ha in Hb. inversion Hb; subst. eexists; by split.
    + rewrite lookup_insert_ne by done. by exists a.
  - rewrite yield_all_lookup, Ha. simpl. eexists; by split.
Qed.

(** [test_actor_creation], over time: an actor stays registered under its
    id, with the same id and dispatch table, through any operations except
    its own removal and [shutdown]. *)
Theorem actor_stays_addressable (s : State) (ops : list Op) (id : nat) (a : Actor) :
  reachable s -> actors s !! id = Some a -> Forall (fun op => ~ touches id op) ops ->
  exists a', actors (run ops s) !! id = Some a' /\ actor_id a' = actor_id a /\ dispatch a' = dispatch a.
Proof.
  revert s a. induction ops as [|op ops IH]; intros s a Hr Ha Hops; simpl; [by exists a|].
  inversion Hops as [|op0 ops0 Hop Hops']; subst.
  destruct (exec_keeps_actor op s id a Hr Ha Hop) as [a1 [Ha1 [Hi1 Hd1]]].
  destruct (IH (exec op s) a1) as [a' [Ha' [Hi Hd]]]; [by constructor|done|done|].
  exists a'. split; [done|]. split; congruence.
Qed.

(** [test_send_message], for every content: an event sent to a registered
    actor whose [Event] handler is [TestBaseActor.handle_event] is delivered,
    and after one scheduling round its [received_message] is that content,
    whatever was queued before. *)
Theorem send_then_round_received (s : State) (id : nat) (a : Actor) (c : string) :
  reachable s -> actors s !! id = Some a -> find_handler KEvent (dispatch a) = Some record_content ->
  fst (send id (BaseEvent c) s) = inr tt /\
  received <$> actors (yield_all (snd (send id (BaseEvent c) s))) !! id = Some (Some c).
Proof.
  intros Hr Ha Hh. pose proof (reachable_not_shut s id a Hr Ha) as Hs.
  unfold send. simpl. rewrite Hs, Ha. split; [done|]. simpl.
  rewrite yield_all_lookup. simpl. rewrite lookup_insert_eq. simpl.
  unfold deliver, handles. simpl. rewrite Hh. simpl.
  rewrite handle_all_last. unfold apply_handler. simpl. by rewrite Hh.
Qed.

(** [test_publishing], for every content and every number of actors: after
    [publish(Event(content=C))] and one scheduling round, every registered
    actor whose [Event] handler is [TestBaseActor.handle_event] has
    [received_message == C]. *)
Theorem publish_then_round_received (s : State) (c : string) (id : nat) (a : Actor) :
  reachable s -> actors s !! id = Some a -> find_handler KEvent (dispatch a) = Some record_content ->
  received <$> actors (yield_all (snd (publish (BaseEvent c) s))) !! id = Some (Some c).
Proof.
  intros Hr Ha Hh. pose proof (reachable_not_shut s id a Hr Ha) as Hs.
  unfold publish. simpl. rewrite Hs. simpl.
  rewrite yield_all_lookup. simpl. rewrite lookup_fmap, Ha. simpl.
  unfold deliver, handles. simpl. rewrite Hh. simpl.
  rewrite handle_all_last. unfold apply_handler. simpl. by rewrite Hh.
Qed.

(** [InsightTweetModuleActor.handle_tax_return]: when [insight_tweet_call]
    raises (in particular when no language model has been configured, as
    [handle_tax_return] never calls [init_dspy]), the exception escapes the
    handler and nothing is published: the system is left as it was. When it
    returns a tweet, on a live system the handler returns normally, every
    pending waiter of [InsightTweetModuleEvent] is resolved with the event
    whose content is the tweet, and every actor handling that kind has it
    queued last. *)
Theorem handle_tax_return_publishes (lm : LM) (command : Message) (s : State) :
  is_shut s = false ->
  match insight_tweet_call lm (content command) with
  | inl e => handle_tax_return lm command s = (inl (LMException e), s)
  | inr tweet =>
      fst (handle_tax_return lm command s) = inr tt /\
      (forall w, In (w, KOther "InsightTweetModuleEvent") (waiters s) ->
         lookup_result w (snd (handle_tax_return lm command s)) =
           Some (Resolved (InsightTweetModuleEvent tweet))) /\
      (forall id a, actors s !! id = Some a -> handles a (KOther "InsightTweetModuleEvent") = true ->
         mailbox <$> actors (snd (handle_tax_return lm command s)) !! id =
           Some (mailbox a ++ [InsightTweetModuleEvent tweet]))
  end.
Proof.
  intros Hs. unfold handle_tax_return.
  destruct (insight_tweet_call lm (content command)) as [e|tweet]; [done|].
  assert (Hp : publish (InsightTweetModuleEvent tweet) s =
               (inr tt, snd (publish (InsightTweetModuleEvent tweet) s))).
  { unfold publish. simpl. by rewrite Hs. }
  rewrite Hp. simpl. split; [done|]. split.
  - intros w Hin. by apply publish_resolves.
  - intros id a Ha Hh. unfold publish. simpl. rewrite Hs. simpl.
    rewrite lookup_fmap, Ha. simpl. unfold deliver. simpl in Hh |- *. by rewrite Hh.
Qed.

(** ** Concrete instances of the further properties *)

Lemma log_sink_contains_written_witness :
  In "Actor 0 not found."%string ["a"; "Actor 0 not found."; "b"]%string /\
  is_substring "Actor 0 not found."%string
    (sink_str (sink_writes empty_sink ["a"; "Actor 0 not found."; "b"]%string)).
Proof.
  assert (H : In "Actor 0 not found."%string ["a"; "Actor 0 not found."; "b"]%string)
    by (simpl; right; left; reflexivity).
  split; [exact H|]. exact (log_sink_contains_written empty_sink _ _ H).
Defined.

Lemma actor_removal_logged_witness :
  reachable one_base_actor /\
  actors one_base_actor !! 0 = Some (make_actor 0 (mkSpec [] None)) /\
  is_base_kind (BaseEvent "Message to removed actor."%string) = false /\
  is_substring (not_found_msg 0)
    (sink_str (sink_of_diag (snd (send 0 (BaseEvent "Message to removed actor."%string)
                                       (snd (remove_actor 0 one_base_actor)))))).
Proof.
  split; [apply reachable_run, reach_init|].
  split; [vm_compute; reflexivity|]. split; [reflexivity|].
  apply (actor_removal_logged one_base_actor 0 (make_actor 0 (mkSpec [] None)));
    [apply reachable_run, reach_init|vm_compute; reflexivity|reflexivity].
Defined.

Example removed_actor_sink_text :
  sink_str (sink_of_diag (snd (send 0 (BaseEvent "Message to removed actor."%string)
                                    (snd (remove_actor 0 one_base_actor))))) =
  ("Actor 0 not found." +:+ String (Ascii.ascii_of_nat 10) EmptyString)%string.
Proof. vm_compute. reflexivity. Qed.

Lemma actor_of_registers_witness :
  reachable one_base_actor /\ is_shut one_base_actor = false /\
  TestBaseActor (next_id one_base_actor) = inr test_spec /\
  (fst (actor_of TestBaseActor one_base_actor) = inr (next_id one_base_actor) /\
   actors one_base_actor !! next_id one_base_actor = None /\
   actors (snd (actor_of TestBaseActor one_base_actor)) !! next_id one_base_actor =
     Some (make_actor (next_id one_base_actor) test_spec) /\
   forall k, k <> next_id one_base_actor ->
     actors (snd (actor_of TestBaseActor one_base_actor)) !! k = actors one_base_actor !! k).
Proof.
  split; [apply reachable_run, reach_init|]. split; [reflexivity|]. split; [reflexivity|].
  apply actor_of_registers; [apply reachable_run, reach_init|reflexivity|reflexivity].
Defined.

Definition x4_ops : list Op :=
  [OpRemove 1; OpPublish (BaseEvent "x"%string); OpYield; OpActorOf BaseActorF; OpSend 0 (BaseEvent "y"%string)].

Lemma actor_stays_addressable_witness :
  reachable two_test_actors /\
  actors two_test_actors !! 0 = Some (make_actor 0 test_spec) /\
  Forall (fun op => ~ touches 0 op) x4_ops /\
  exists a', actors (run x4_ops two_test_actors) !! 0 = Some a' /\
    actor_id a' = actor_id (make_actor 0 test_spec) /\ dispatch a' = dispatch (make_actor 0 test_spec).
Proof.
  assert (Hr : reachable two_test_actors) by (apply reachable_run, reach_init).
  assert (Ha : actors two_test_actors !! 0 = Some (make_actor 0 test_spec)) by (vm_compute; reflexivity).
  assert (Hops : Forall (fun op => ~ touches 0 op) x4_ops)
    by (repeat (constructor || (simpl; lia) || (intros []))).
  split; [exact Hr|]. split; [exact Ha|]. split; [exact Hops|].
  exact (actor_stays_addressable two_test_actors x4_ops 0 _ Hr Ha Hops).
Defined.

Lemma send_then_round_received_witness :
  reachable two_test_actors /\
  actors two_test_actors !! 0 = Some (make_actor 0 test_spec) /\
  find_handler KEvent (dispatch (make_actor 0 test_spec)) = Some record_content /\
  (fst (send 0 (BaseEvent "Direct send test"%string) two_test_actors) = inr tt /\
   received <$> actors (yield_all (snd (send 0 (BaseEvent "Direct send test"%string) two_test_actors))) !! 0
     = Some (Some "Direct send test"%string)).
Proof.
  split; [apply reachable_run, reach_init|].
  split; [vm_compute; reflexivity|]. split; [reflexivity|].
  apply (send_then_round_received two_test_actors 0 (make_actor 0 test_spec));
    [apply reachable_run, reach_init|vm_compute; reflexivity|reflexivity].
Defined.

Lemma publish_then_round_received_witness :
  reachable two_test_actors /\
  actors two_test_actors !! 1 = Some (make_actor 1 test_spec) /\
  find_handler KEvent (dispatch (make_actor 1 test_spec)) = Some record_content /\
  received <$> actors (yield_all (snd (publish (BaseEvent "Content"%string) two_test_actors))) !! 1
    = Some (Some "Content"%string).
Proof.
  split; [apply reachable_run, reach_init|].
  split; [vm_compute; reflexivity|]. split; [reflexivity|].
  apply (publish_then_round_received two_test_actors "Content"%string 1 (make_actor 1 test_spec));
    [apply reachable_run, reach_init|vm_compute; reflexivity|reflexivity].
Defined.

Definition tweet_waiting : State :=
  snd (wait_for_message (KOther "InsightTweetModuleEvent") one_base_actor).

Definition tweet_command : Message := mkMsg (KOther "InsightTweetModuleCommand") "an insight".

(** A language model that answers with the prompt itself. *)
Definition echo_lm : LM := Some (fun x => inr x).

(** Without [init_dspy] the handler raises and publishes nothing. *)
Example handle_tax_return_without_lm :
  handle_tax_return None tweet_command tweet_waiting =
    (inl (LMException no_lm_loaded), tweet_waiting).
Proof. reflexivity. Qed.

Lemma handle_tax_return_publishes_witness :
  is_shut tweet_waiting = false /\
  (fst (handle_tax_return echo_lm tweet_command tweet_waiting) = inr tt /\
   (forall w, In (w, KOther "InsightTweetModuleEvent") (waiters tweet_waiting) ->
      lookup_result w (snd (handle_tax_return echo_lm tweet_command tweet_waiting)) =
        Some (Resolved (InsightTweetModuleEvent (content tweet_command)))) /\
   (forall id a, actors tweet_waiting !! id = Some a ->
      handles a (KOther "InsightTweetModuleEvent") = true ->
      mailbox <$> actors (snd (handle_tax_return echo_lm tweet_command tweet_waiting)) !! id =
        Some (mailbox a ++ [InsightTweetModuleEvent (content tweet_command)]))).
Proof.
  assert (Hs : is_shut tweet_waiting = false) by reflexivity.
  split; [exact Hs|]. exact (handle_tax_return_publishes echo_lm tweet_command tweet_waiting Hs).
Defined.
